(** * AIpStack integer formatting and parsing (aipstack/utils/IntFormat.h)

    A shallow embedding of [MaxIntegerFormatLen], [FormatInteger] and
    [ParseInteger], and the properties of the three that the library's
    description relies on: the length bound, the shape of the formatted text,
    the frame of the formatter, the grammar and range checks of the parser, and
    the round trip between the two. *)

From Stdlib Require Import ZArith Lia Bool Ascii String List.
From stdpp Require Import base option list.
From Equations Require Import Equations.

Local Open Scope Z_scope.

(** ** Integer types

    The functions are templates over an integer type [T] (bool excluded).  A
    type is described by its signedness and its width in bits; values of the
    type are integers of [Z] between [TypeMin] and [TypeMax]. *)

Record IntType : Type := { is_signed : bool; bits : Z }.

(** Every C++ integer type other than bool has at least [CHAR_BIT >= 8] bits. *)
Definition IsInteger (T : IntType) : Prop := 8 <= bits T.

(** [std::make_unsigned_t<T>]: same width, unsigned. *)
Definition make_unsigned (T : IntType) : IntType :=
  {| is_signed := false; bits := bits T |}.

(** Modelled from the spec: [TypeMin<T>], declared in aipstack/misc/MinMax.h,
    a header that is not included here.  The minimum representable value of a
    two's-complement type ("range -128..127" for the signed 8-bit type). *)
Definition TypeMin (T : IntType) : Z :=
  if is_signed T then - 2 ^ (bits T - 1) else 0.

(** Modelled from the spec: [TypeMax<T>], declared in aipstack/misc/MinMax.h,
    a header that is not included here.  The maximum representable value
    ("range 0..255" for the unsigned 8-bit type). *)
Definition TypeMax (T : IntType) : Z :=
  if is_signed T then 2 ^ (bits T - 1) - 1 else 2 ^ bits T - 1.

Definition representable (T : IntType) (v : Z) : Prop :=
  TypeMin T <= v <= TypeMax T.

Definition representableb (T : IntType) (v : Z) : bool :=
  (TypeMin T <=? v) && (v <=? TypeMax T).

(** The conversion [T(x)]: to an unsigned type it reduces modulo [2^bits]; to a
    signed type it is the two's-complement reading of the same residue. *)
Definition convert (T : IntType) (x : Z) : Z :=
  if is_signed T
  then (x + 2 ^ (bits T - 1)) mod 2 ^ bits T - 2 ^ (bits T - 1)
  else x mod 2 ^ bits T.

(** Arithmetic on operands of an unsigned type wraps around.  Where the type is
    narrower than [int] the operands are promoted to [int] and the exact result
    is reduced when it is stored into a variable of the type, so that a stored
    value is the same.  The one result that is used without being stored,
    [ulimit - uvalue] in the scanning loop of the parser, is the same as long
    as [uvalue <= ulimit], which holds in every state of that loop (lemma
    [loop_state_bounds]). *)
Definition uneg (UT : IntType) (a : Z) : Z := (- a) mod 2 ^ bits UT.
Definition uadd (UT : IntType) (a b : Z) : Z := (a + b) mod 2 ^ bits UT.
Definition usub (UT : IntType) (a b : Z) : Z := (a - b) mod 2 ^ bits UT.
Definition umul (UT : IntType) (a b : Z) : Z := (a * b) mod 2 ^ bits UT.

(** Arithmetic on operands of a signed type has no defined result when the exact
    result is not representable: [None] stands for undefined behaviour. *)
Definition signed_result (T : IntType) (x : Z) : option Z :=
  if representableb T x then Some x else None.
Definition sneg (T : IntType) (a : Z) : option Z := signed_result T (- a).
Definition ssub (T : IntType) (a b : Z) : option Z := signed_result T (a - b).

(** ** Characters and memory

    A [char] is a byte, here an [ascii].  [UChar ch] is the conversion
    [UChar(ch)] to [unsigned char], and [to_char] the conversion of an integer
    to [char]. *)

Definition UChar (ch : ascii) : Z := Z.of_N (N_of_ascii ch).
Definition to_char (x : Z) : ascii := ascii_of_N (Z.to_N (x mod 256)).

(** The store [*pos = ch] into a region of memory; a store outside the region
    has no defined behaviour ([None]). *)
Definition store (mem : list ascii) (pos : nat) (ch : ascii) : option (list ascii) :=
  if (pos <? length mem)%nat then Some (<[pos := ch]> mem) else None.

(** [std::reverse(first, last)]: the bytes of [first, last) in reverse order, the
    others as they were. *)
Definition std_reverse (mem : list ascii) (first last : nat) : list ascii :=
  take first mem ++ rev (take (last - first) (drop first mem)) ++ drop last mem.

(** The bytes of [first, last). *)
Definition span (mem : list ascii) (first last : nat) : list ascii :=
  take (last - first) (drop first mem).

(** ** Length bound *)

(** Both loops on a magnitude divide it by ten while the quotient is positive:
    the binary logarithm of the magnitude decreases. *)
Ltac div10_decreases value :=
  match goal with
  | Hq : 0 < value / 10 |- _ =>
      assert (10 <= value)
        by (destruct (Z_lt_dec value 10); [|lia];
            destruct (Z_lt_dec value 0);
            [pose proof (Z.div_lt_upper_bound value 10 0 ltac:(lia) ltac:(lia)); lia
            |rewrite Z.div_small in Hq by lia; lia]);
      pose proof (Z.log2_nonneg (value / 10));
      apply Z2Nat.inj_lt; [lia | apply Z.log2_nonneg |];
      apply Z.log2_lt_pow2; [lia|];
      let Hup := fresh "Hup" in
      destruct (Z.log2_spec value ltac:(lia)) as [_ Hup];
      rewrite Z.pow_succ_r in Hup by apply Z.log2_nonneg;
      apply Z.div_lt_upper_bound; lia
  end.

(** The loop of [IntegerFormatLenUnsigned]:
    [do { value /= 10; len++; } while (value > 0);] entered with [len] and
    [value].  The quotient of an unsigned value by ten is in the range of its
    type. *)
Equations IntegerFormatLenUnsigned_loop (value : Z) (len : nat) : nat
  by wf (Z.to_nat (Z.log2 value)) lt :=
  IntegerFormatLenUnsigned_loop value len with Z_lt_dec 0 (value / 10) := {
    | left _ => IntegerFormatLenUnsigned_loop (value / 10) (S len)
    | right _ => S len }.
Next Obligation. intros. div10_decreases value. Qed.

Definition IntegerFormatLenUnsigned (value : Z) : nat :=
  IntegerFormatLenUnsigned_loop value 0.

(** The specialisation [IntegerFormatLenUnsigned<T>].  The template holds
    [static_assert(std::is_unsigned_v<T>)]: there is no specialisation for a
    signed [T], and a program that names one is ill-formed ([None]). *)
Definition IntegerFormatLenUnsigned_of (T : IntType) : option (Z -> nat) :=
  if is_signed T then None else Some IntegerFormatLenUnsigned.

(** [MaxIntegerFormatLenBase<T>()].  Its statement is a plain [if], not an
    [if constexpr]: both branches belong to every specialisation, and with them
    the two specialisations of [IntegerFormatLenUnsigned] that they name,
    [IntegerFormatLenUnsigned<UT>] and [IntegerFormatLenUnsigned<T>], whichever
    branch is taken.  [None]: the specialisation is ill-formed. *)
Definition MaxIntegerFormatLenBase (T : IntType) : option nat :=
  let UT := make_unsigned T in
  len_UT ← IntegerFormatLenUnsigned_of UT;
  len_T ← IntegerFormatLenUnsigned_of T;
  Some (if is_signed T then
          (1 + len_UT (convert UT (uneg UT (convert UT (TypeMin T)))))%nat
        else
          len_T (TypeMax T)).

Definition MaxIntegerFormatLen (T : IntType) : option nat :=
  MaxIntegerFormatLenBase T.

(** ** FormatInteger *)

(** The digit loop of [FormatInteger]:
    [do { *pos++ = '0' + (uval % 10); uval /= 10; } while (uval > 0);]
    It returns the memory and [pos] at the exit of the loop. *)
Equations format_loop (mem : list ascii) (pos : nat) (uval : Z) : option (list ascii * nat)
  by wf (Z.to_nat (Z.log2 uval)) lt :=
  format_loop mem pos uval with store mem pos (to_char (UChar "0" + uval mod 10)) := {
    | None => None
    | Some mem' with Z_lt_dec 0 (uval / 10) := {
      | left _ => format_loop mem' (S pos) (uval / 10)
      | right _ => Some (mem', S pos) } }.
Next Obligation. intros. div10_decreases uval. Qed.

(** [FormatInteger(out_str, value)] on the memory [mem], [out_str] being an
    offset into it.  The result is the memory after the call and the returned
    pointer. *)
Definition FormatInteger (T : IntType) (mem : list ascii) (out_str : nat) (value : Z)
  : option (list ascii * nat) :=
  let UT := make_unsigned T in
  let isNegative := value <? 0 in
  let uval := if isNegative then convert UT (uneg UT (convert UT value))
              else convert UT value in
  '(mem, pos) ← format_loop mem out_str uval;
  '(mem, pos) ← (if isNegative
                 then mem' ← store mem pos "-"%char; Some (mem', S pos)
                 else Some (mem, pos));
  Some (std_reverse mem out_str pos, pos).

(** ** ParseInteger *)

(** One iteration of the scanning loop on the character [ch], from the
    accumulator [uvalue]; [None] is the [return false] of the loop. *)
Definition parse_digit (UT : IntType) (ulimit ulimit_10 uvalue : Z) (ch : ascii)
  : option Z :=
  let digit_val := (UChar ch - UChar "0") mod 256 in
  if 9 <? digit_val then None
  else if ulimit_10 <? uvalue then None
  else
    let uvalue := umul UT uvalue 10 in
    if usub UT ulimit uvalue <? digit_val then None
    else Some (uadd UT uvalue digit_val).

(** The loop [do { char ch = *ptr++; ... } while (ptr != end);] entered with
    [ptr] at [ch] and [rest] after it. *)
Fixpoint parse_loop (UT : IntType) (ulimit ulimit_10 uvalue : Z)
  (ch : ascii) (rest : list ascii) : option Z :=
  match parse_digit UT ulimit ulimit_10 uvalue ch with
  | None => None
  | Some uvalue =>
      match rest with
      | [] => Some uvalue
      | ch' :: rest' => parse_loop UT ulimit ulimit_10 uvalue ch' rest'
      end
  end.

(** [isNegative ? UT(-UT(TypeMin<T>)) : TypeMax<T>] *)
Definition parse_limit (T : IntType) (isNegative : bool) : Z :=
  let UT := make_unsigned T in
  if isNegative then convert UT (uneg UT (convert UT (TypeMin T)))
  else convert UT (TypeMax T).

(** The value computed from the accumulator after the loop.  The operands of
    the conditional expression are brought to a common type, [UT] unless both
    are promoted to [int], before the assignment converts to [T]. *)
Definition parse_value (T : IntType) (isNegative : bool) (uvalue : Z) : option Z :=
  let UT := make_unsigned T in
  if isNegative then
    if uvalue =? 0 then Some (convert T (uneg UT uvalue))
    else
      a ← sneg T (convert T (usub UT uvalue 1));
      b ← ssub T a 1;
      Some (convert T (convert UT b))
  else Some (convert T uvalue).

(** From [UT ulimit = ...] to the end of the function, with [ptr] at [ch]. *)
Definition parse_digits (T : IntType) (isNegative : bool) (ch : ascii)
  (rest : list ascii) (out_value : Z) : option (bool * Z) :=
  let UT := make_unsigned T in
  let ulimit := parse_limit T isNegative in
  let ulimit_10 := ulimit / 10 in
  match parse_loop UT ulimit ulimit_10 0 ch rest with
  | None => Some (false, out_value)
  | Some uvalue =>
      value ← parse_value T isNegative uvalue;
      Some (true, value)
  end.

(** [ParseInteger(str, out_value)]: [str] is the content of a span whose
    pointer is not null, [out_value] the content of the output location before
    the call.  The result is the returned flag and the content of the output
    location after the call; [None] is undefined behaviour. *)
Definition ParseInteger (T : IntType) (str : list ascii) (out_value : Z)
  : option (bool * Z) :=
  match str with
  | [] => Some (false, out_value)
  | ch :: rest =>
      if is_signed T && Ascii.eqb ch "-" then
        match rest with
        | [] => Some (false, out_value)
        | ch' :: rest' => parse_digits T true ch' rest' out_value
        end
      else parse_digits T false ch rest out_value
  end.

(** ** Decimal text

    The decimal representation of an integer and the grammar of the parser,
    stated without reference to the two functions. *)

Definition is_digit (ch : ascii) : bool :=
  (UChar "0" <=? UChar ch) && (UChar ch <=? UChar "9").

Definition digit_value (ch : ascii) : Z := UChar ch - UChar "0".

(** The number written by the digits [s] after the digits that gave [acc]. *)
Definition decimal_from (acc : Z) (s : list ascii) : Z :=
  fold_left (fun a ch => a * 10 + digit_value ch) s acc.

Definition decimal_value (s : list ascii) : Z := decimal_from 0 s.

(** One or more decimal digits. *)
Definition digit_string (s : list ascii) : bool :=
  negb (Nat.eqb (length s) 0) && forallb is_digit s.

(** No redundant leading zero: the first digit is not ['0'] unless it is the
    only one. *)
Definition canonical (s : list ascii) : bool :=
  match s with
  | ch :: _ :: _ => negb (Ascii.eqb ch "0")
  | _ => true
  end.

(** The grammar of the parser: an optional ['-'], for a signed type only, and
    one or more decimal digits. *)
Definition well_formed (T : IntType) (str : list ascii) : bool :=
  match str with
  | ch :: rest =>
      if Ascii.eqb ch "-" then is_signed T && digit_string rest
      else digit_string str
  | [] => false
  end.

(** The decimal representation of [v]: ['-'] when [v] is negative, then the
    digits of its magnitude without a redundant leading zero. *)
Definition decimal_repr (v : Z) (str : list ascii) : Prop :=
  exists ds,
    str = (if v <? 0 then ["-"%char] else []) ++ ds /\
    digit_string ds = true /\ canonical ds = true /\ decimal_value ds = Z.abs v.

(** The first digit of [s] is not ['0']. *)
Definition leading_nonzero (s : list ascii) : bool :=
  match s with
  | ch :: _ => negb (Ascii.eqb ch "0")
  | [] => false
  end.

(** The number of characters of the text of [v]. *)
Definition format_length (v : Z) : nat :=
  ((if (v <? 0)%Z then 1 else 0) + IntegerFormatLenUnsigned (Z.abs v))%nat.

(** The value of [T] with the longest text: the minimum of a signed type, the
    maximum of an unsigned type. *)
Definition hardest (T : IntType) : Z :=
  if is_signed T then TypeMin T else TypeMax T.


(** The number an input writes. *)
Definition text_value (str : list ascii) : Z :=
  match str with
  | ch :: ds => if Ascii.eqb ch "-" then - decimal_value ds else decimal_value str
  | [] => 0
  end.

(** The values the accumulator [uvalue] holds when an iteration of the scanning
    loop starts or ends: zero at the entry, and what an iteration that does not
    return false leaves. *)
Inductive loop_state (UT : IntType) (ulimit : Z) : Z -> Prop :=
| loop_entry : loop_state UT ulimit 0
| loop_next (uvalue uvalue' : Z) (ch : ascii) :
    loop_state UT ulimit uvalue ->
    parse_digit UT ulimit (ulimit / 10) uvalue ch = Some uvalue' ->
    loop_state UT ulimit uvalue'.

(** A text as [FormatInteger] writes them: no redundant leading zero and, after
    a ['-'], a number that is not zero. *)
Definition canonical_text (str : list ascii) : bool :=
  match str with
  | ch :: ds =>
      if Ascii.eqb ch "-" then canonical ds && negb (decimal_value ds =? 0)
      else canonical str
  | [] => true
  end.

(** ** Enum bitfields (aipstack/misc/EnumBitfieldUtils.h)

    The operators that [AIPSTACK_ENUM_BITFIELD_OPS(EnumType)] enables for an
    enum type.  The enum has a fixed underlying type [U], as every [enum class]
    has, and a value of the enum is represented by its value in [U]. *)

(** The dummy operand of [==] and [!=], and its one value. *)
Inductive EnumZeroType : Type := EnumZero.

(** Modelled from the spec: [ToUnderlyingType], declared in
    aipstack/misc/EnumUtils.h, a header that is not included here.  The value
    of the enum in its underlying type (the operators perform "the
    corresponding operation on the underlying type"). *)
Definition ToUnderlyingType (arg : Z) : Z := arg.

(** The cast [EnumType(x)] of an integer to the enum: the conversion to the
    underlying type. *)
Definition EnumType (U : IntType) (x : Z) : Z := convert U x.

(** The bitwise operators of [Z] act on the two's-complement digits of an
    integer of either sign, as those of C++ do on the promoted operands; where
    the operands are of an unsigned type that is not promoted, the result of
    [~] in C++ differs from that in [Z] by [2^bits], which the cast removes. *)
Definition operator_not (U : IntType) (arg : Z) : Z :=
  EnumType U (Z.lnot (ToUnderlyingType arg)).

Definition operator_or (U : IntType) (arg1 arg2 : Z) : Z :=
  EnumType U (Z.lor (ToUnderlyingType arg1) (ToUnderlyingType arg2)).

Definition operator_and (U : IntType) (arg1 arg2 : Z) : Z :=
  EnumType U (Z.land (ToUnderlyingType arg1) (ToUnderlyingType arg2)).

Definition operator_xor (U : IntType) (arg1 arg2 : Z) : Z :=
  EnumType U (Z.lxor (ToUnderlyingType arg1) (ToUnderlyingType arg2)).

(** The compound assignments store into [arg1] and return a reference to it:
    the result is the content of [arg1] after the call. *)
Definition operator_or_assign (U : IntType) (arg1 arg2 : Z) : Z :=
  let arg1 := EnumType U (Z.lor (ToUnderlyingType arg1) (ToUnderlyingType arg2)) in
  arg1.

Definition operator_and_assign (U : IntType) (arg1 arg2 : Z) : Z :=
  let arg1 := EnumType U (Z.land (ToUnderlyingType arg1) (ToUnderlyingType arg2)) in
  arg1.

Definition operator_xor_assign (U : IntType) (arg1 arg2 : Z) : Z :=
  let arg1 := EnumType U (Z.lxor (ToUnderlyingType arg1) (ToUnderlyingType arg2)) in
  arg1.

Definition operator_eq (arg : Z) (_ : EnumZeroType) : bool :=
  ToUnderlyingType arg =? 0.

Definition operator_ne (arg : Z) (_ : EnumZeroType) : bool :=
  negb (ToUnderlyingType arg =? 0).

(** ** Concrete types and inputs *)

Definition int8_t : IntType := {| is_signed := true; bits := 8 |}.
Definition uint8_t : IntType := {| is_signed := false; bits := 8 |}.
Definition int64_t : IntType := {| is_signed := true; bits := 64 |}.
Definition uint64_t : IntType := {| is_signed := false; bits := 64 |}.


Definition text (s : string) : list ascii := list_ascii_of_string s.
Definition buffer (n : nat) : list ascii := repeat "#"%char n.

(** * Properties *)

(** ** The functions on concrete inputs *)

Example MaxIntegerFormatLen_examples :
  MaxIntegerFormatLen uint8_t = Some 3%nat /\
  MaxIntegerFormatLen uint64_t = Some 20%nat /\
  MaxIntegerFormatLen int8_t = None /\ MaxIntegerFormatLen int64_t = None.
Proof. repeat split; reflexivity. Qed.

Example FormatInteger_examples :
  FormatInteger int8_t (buffer 4) 0 (-128) = Some (text "-128", 4%nat) /\
  FormatInteger int8_t (buffer 4) 0 0 = Some (text "0###", 1%nat) /\
  FormatInteger uint8_t (buffer 5) 1 255 = Some (text "#255#", 4%nat) /\
  FormatInteger int64_t (buffer 20) 0 (-9223372036854775808)
    = Some (text "-9223372036854775808", 20%nat) /\
  FormatInteger int8_t (buffer 3) 0 (-128) = None.
Proof. repeat split; reflexivity. Qed.

Example ParseInteger_examples :
  ParseInteger int8_t (text "-128") 77 = Some (true, -128) /\
  ParseInteger int8_t (text "-0") 77 = Some (true, 0) /\
  ParseInteger int8_t (text "0042") 77 = Some (true, 42) /\
  ParseInteger int8_t (text "+5") 77 = Some (false, 77) /\
  ParseInteger uint8_t (text "-0") 77 = Some (false, 77) /\
  ParseInteger int64_t (text "-9223372036854775808") 77
    = Some (true, -9223372036854775808) /\
  ParseInteger int64_t (text "9223372036854775808") 77 = Some (false, 77).
Proof. repeat split; reflexivity. Qed.

(** ** Arithmetic of the integer types *)

Lemma UChar_range (ch : ascii) : 0 <= UChar ch < 256.
Proof.
  unfold UChar. pose proof (N_ascii_bounded ch). lia.
Qed.

Lemma UChar_to_char (x : Z) : 0 <= x < 256 -> UChar (to_char x) = x.
Proof.
  intros Hx. unfold UChar, to_char.
  rewrite Z.mod_small by lia.
  rewrite N_ascii_embedding by lia. lia.
Qed.

Lemma UChar_inj (a b : ascii) : UChar a = UChar b -> a = b.
Proof.
  unfold UChar. intros Hab.
  rewrite <- (ascii_N_embedding a), <- (ascii_N_embedding b).
  f_equal. lia.
Qed.

Lemma wrap_up (x M : Z) : 0 <= x + M < M -> x mod M = x + M.
Proof.
  intros Hx. rewrite <- (Z.mod_add x 1 M) by lia.
  rewrite Z.mul_1_l. apply Z.mod_small. lia.
Qed.

Lemma wrap_down (x M : Z) : 0 <= x - M < M -> x mod M = x - M.
Proof.
  intros Hx. rewrite <- (Z.mod_add x (-1) M) by lia.
  replace (x + -1 * M) with (x - M) by lia. apply Z.mod_small. lia.
Qed.

Section TypeArithmetic.
Variable T : IntType.
Hypothesis HT : IsInteger T.

Let UT := make_unsigned T.

Lemma half_range : 2 ^ bits T = 2 * 2 ^ (bits T - 1) /\ 128 <= 2 ^ (bits T - 1).
Proof using HT.
  unfold IsInteger in HT. split.
  - rewrite <- Z.pow_succ_r by lia. f_equal. lia.
  - change 128 with (2 ^ 7). apply Z.pow_le_mono_r; lia.
Qed.

Lemma TypeMax_bounds : 127 <= TypeMax T < 2 ^ bits T.
Proof using HT.
  destruct half_range as [Hd Hh]. unfold TypeMax. destruct (is_signed T); lia.
Qed.

Lemma convert_UT_small (x : Z) : 0 <= x < 2 ^ bits T -> convert UT x = x.
Proof.
  intros Hx. unfold convert, UT. simpl. now apply Z.mod_small.
Qed.

Lemma convert_T_representable (x : Z) : representable T x -> convert T x = x.
Proof using HT.
  destruct half_range as [Hd Hh].
  unfold representable, TypeMin, TypeMax, convert.
  destruct (is_signed T); intros Hx.
  - rewrite Z.mod_small by lia. lia.
  - apply Z.mod_small. lia.
Qed.

(** The magnitude computed by [UT(-UT(value))] for a negative [value]. *)
Lemma magnitude_of_negative (v : Z) :
  representable T v -> v < 0 -> convert UT (uneg UT (convert UT v)) = - v.
Proof using HT.
  destruct half_range as [Hd Hh].
  unfold representable, TypeMin, TypeMax. intros Hv Hneg.
  destruct (is_signed T) eqn:Hs; [|lia].
  assert (Hc : convert UT v = v + 2 ^ bits T).
  { unfold convert, UT. simpl. apply wrap_up. lia. }
  rewrite Hc. unfold uneg, UT at 2. simpl.
  assert (Hn : (- (v + 2 ^ bits T)) mod 2 ^ bits T = - v).
  { rewrite wrap_up by lia. lia. }
  rewrite Hn. apply convert_UT_small. lia.
Qed.

Lemma magnitude_of_nonnegative (v : Z) :
  representable T v -> 0 <= v -> convert UT v = v.
Proof using HT.
  pose proof TypeMax_bounds. unfold representable. intros Hv Hnn.
  apply convert_UT_small. lia.
Qed.

Lemma parse_limit_negative :
  is_signed T = true -> parse_limit T true = 2 ^ (bits T - 1).
Proof using HT.
  destruct half_range as [Hd Hh]. intros Hs.
  unfold parse_limit. fold UT.
  replace (2 ^ (bits T - 1)) with (- TypeMin T)
    by (unfold TypeMin; rewrite Hs; lia).
  apply magnitude_of_negative.
  - unfold representable, TypeMin, TypeMax. rewrite Hs. lia.
  - unfold TypeMin. rewrite Hs. lia.
Qed.

Lemma parse_limit_nonnegative : parse_limit T false = TypeMax T.
Proof using HT.
  pose proof TypeMax_bounds.
  unfold parse_limit. fold UT. apply convert_UT_small. lia.
Qed.

Lemma parse_limit_bounds (isNegative : bool) :
  (isNegative = true -> is_signed T = true) ->
  0 <= parse_limit T isNegative < 2 ^ bits T.
Proof using HT.
  destruct half_range as [Hd Hh]. pose proof TypeMax_bounds.
  destruct isNegative; intros Hs.
  - rewrite parse_limit_negative by auto. lia.
  - rewrite parse_limit_nonnegative. lia.
Qed.

Lemma signed_result_representable (x : Z) :
  representable T x -> signed_result T x = Some x.
Proof.
  unfold representable, signed_result, representableb. intros Hx.
  destruct (Z.leb_spec (TypeMin T) x); [|lia].
  destruct (Z.leb_spec x (TypeMax T)); [|lia]. reflexivity.
Qed.

(** The value of a negative input whose magnitude is [uvalue]. *)
Lemma parse_value_negative (uvalue : Z) :
  is_signed T = true -> 0 <= uvalue <= 2 ^ (bits T - 1) ->
  parse_value T true uvalue = Some (- uvalue).
Proof using HT.
  destruct half_range as [Hd Hh]. intros Hs Hu.
  assert (Hrep : forall x, - 2 ^ (bits T - 1) <= x <= 2 ^ (bits T - 1) - 1 ->
                           representable T x).
  { intros x Hx. unfold representable, TypeMin, TypeMax. now rewrite Hs. }
  unfold parse_value. fold UT.
  destruct (Z.eqb_spec uvalue 0) as [->|Hnz].
  - unfold uneg. simpl. rewrite Z.mod_0_l by lia.
    f_equal. apply convert_T_representable, Hrep. lia.
  - assert (Hs1 : usub UT uvalue 1 = uvalue - 1).
    { unfold usub, UT. simpl. apply Z.mod_small. lia. }
    rewrite Hs1, convert_T_representable by (apply Hrep; lia).
    unfold sneg. rewrite signed_result_representable by (apply Hrep; lia).
    simpl. unfold ssub. rewrite signed_result_representable by (apply Hrep; lia).
    simpl. f_equal.
    assert (Hc : convert UT (- (uvalue - 1) - 1) = 2 ^ bits T - uvalue).
    { unfold convert, UT. simpl. rewrite wrap_up by lia. lia. }
    rewrite Hc. unfold convert. rewrite Hs.
    rewrite wrap_down by lia. lia.
Qed.

Lemma parse_value_nonnegative (uvalue : Z) :
  0 <= uvalue <= TypeMax T -> parse_value T false uvalue = Some uvalue.
Proof using HT.
  intros Hu. unfold parse_value. f_equal.
  apply convert_T_representable.
  unfold representable, TypeMin. destruct (is_signed T); lia.
Qed.

End TypeArithmetic.

(** ** The scanning loop of the parser *)

Lemma UChar_zero : UChar "0" = 48.
Proof. reflexivity. Qed.

Lemma UChar_nine : UChar "9" = 57.
Proof. reflexivity. Qed.

Lemma is_digit_range (ch : ascii) : is_digit ch = true <-> 48 <= UChar ch <= 57.
Proof.
  unfold is_digit. rewrite UChar_zero, UChar_nine, andb_true_iff, !Z.leb_le.
  reflexivity.
Qed.

(** [digit_val > 9] is the test for a character that is not a digit. *)
Lemma digit_val_test (ch : ascii) :
  (9 <? (UChar ch - UChar "0") mod 256) = negb (is_digit ch).
Proof.
  pose proof (UChar_range ch) as Hc. rewrite UChar_zero.
  destruct (is_digit ch) eqn:Hd; simpl.
  - apply is_digit_range in Hd. rewrite Z.mod_small by lia. apply Z.ltb_ge. lia.
  - apply Z.ltb_lt.
    destruct (Z_lt_dec (UChar ch) 48) as [Hlt|Hge].
    + rewrite (wrap_up _ 256) by lia. lia.
    + rewrite Z.mod_small by lia.
      destruct (Z_le_dec (UChar ch) 57) as [Hle|]; [|lia].
      assert (is_digit ch = true) by (apply is_digit_range; lia). congruence.
Qed.

Lemma digit_val_value (ch : ascii) :
  is_digit ch = true -> (UChar ch - UChar "0") mod 256 = digit_value ch.
Proof.
  intros Hd. apply is_digit_range in Hd. unfold digit_value.
  rewrite UChar_zero. apply Z.mod_small. lia.
Qed.

Lemma digit_value_range (ch : ascii) : is_digit ch = true -> 0 <= digit_value ch <= 9.
Proof.
  intros Hd. apply is_digit_range in Hd. unfold digit_value.
  rewrite UChar_zero. lia.
Qed.

Lemma decimal_from_cons (acc : Z) (ch : ascii) (s : list ascii) :
  decimal_from acc (ch :: s) = decimal_from (acc * 10 + digit_value ch) s.
Proof. reflexivity. Qed.

Lemma decimal_from_app (acc : Z) (s1 s2 : list ascii) :
  decimal_from acc (s1 ++ s2) = decimal_from (decimal_from acc s1) s2.
Proof. unfold decimal_from. apply fold_left_app. Qed.

Lemma decimal_from_ge (s : list ascii) (acc : Z) :
  forallb is_digit s = true -> 0 <= acc -> acc <= decimal_from acc s.
Proof.
  revert acc. induction s as [|ch s IH]; intros acc Hs Hacc.
  - simpl. lia.
  - simpl in Hs. apply andb_true_iff in Hs as [Hch Hs].
    pose proof (digit_value_range ch Hch).
    rewrite decimal_from_cons.
    specialize (IH (acc * 10 + digit_value ch) Hs). lia.
Qed.

(** A character that is not a digit stops the loop, whatever the limit is. *)
Lemma parse_loop_not_digits (UT : IntType) (ulimit ulimit_10 : Z)
  (rest : list ascii) (uvalue : Z) (ch : ascii) :
  forallb is_digit (ch :: rest) = false ->
  parse_loop UT ulimit ulimit_10 uvalue ch rest = None.
Proof.
  revert uvalue ch. induction rest as [|ch' rest IH]; intros uvalue ch Hnd.
  - simpl in *. unfold parse_digit. rewrite digit_val_test.
    rewrite andb_true_r in Hnd. now rewrite Hnd.
  - cbn [parse_loop]. unfold parse_digit. rewrite digit_val_test.
    cbn [forallb] in Hnd. destruct (is_digit ch); simpl in *; [|reflexivity].
    repeat (match goal with |- context [if ?c then _ else _] => destruct c end;
            try reflexivity).
    now apply IH.
Qed.

Section ScanningLoop.
Variable UT : IntType.
Variable ulimit : Z.
Hypothesis Hlimit : 0 <= ulimit < 2 ^ bits UT.

(** One iteration from an accumulator within the limit: the two guards pass
    exactly when the accumulator extended by the digit is within the limit,
    and then neither the product nor the sum wraps around. *)
Lemma parse_digit_exact (uvalue : Z) (ch : ascii) :
  0 <= uvalue <= ulimit ->
  parse_digit UT ulimit (ulimit / 10) uvalue ch =
    if is_digit ch && (uvalue * 10 + digit_value ch <=? ulimit)
    then Some (uvalue * 10 + digit_value ch) else None.
Proof using Hlimit.
  intros Hu. unfold parse_digit. rewrite digit_val_test.
  destruct (is_digit ch) eqn:Hd; simpl; [|reflexivity].
  rewrite (digit_val_value ch Hd).
  pose proof (digit_value_range ch Hd) as Hdv.
  pose proof (Z.mul_div_le ulimit 10 ltac:(lia)) as Hlo.
  pose proof (Z.mul_succ_div_gt ulimit 10 ltac:(lia)) as Hhi.
  destruct (Z.ltb_spec (ulimit / 10) uvalue) as [Hgt|Hle].
  - destruct (Z.leb_spec (uvalue * 10 + digit_value ch) ulimit); [lia|reflexivity].
  - assert (Hm : umul UT uvalue 10 = uvalue * 10)
      by (unfold umul; apply Z.mod_small; lia).
    rewrite Hm.
    assert (Hs : usub UT ulimit (uvalue * 10) = ulimit - uvalue * 10)
      by (unfold usub; apply Z.mod_small; lia).
    rewrite Hs.
    destruct (Z.ltb_spec (ulimit - uvalue * 10) (digit_value ch));
      destruct (Z.leb_spec (uvalue * 10 + digit_value ch) ulimit); try lia.
    + reflexivity.
    + f_equal. unfold uadd. apply Z.mod_small. lia.
Qed.

(** The loop returns the number written by the digits, continuing the
    accumulator, when all characters are digits and that number is within the
    limit, and stops otherwise. *)
Lemma parse_loop_exact (rest : list ascii) (uvalue : Z) (ch : ascii) :
  0 <= uvalue <= ulimit ->
  parse_loop UT ulimit (ulimit / 10) uvalue ch rest =
    if forallb is_digit (ch :: rest) && (decimal_from uvalue (ch :: rest) <=? ulimit)
    then Some (decimal_from uvalue (ch :: rest)) else None.
Proof using Hlimit.
  revert uvalue ch. induction rest as [|ch' rest IH]; intros uvalue ch Hu.
  - cbn [parse_loop]. rewrite parse_digit_exact by assumption.
    cbn [forallb]. rewrite andb_true_r, decimal_from_cons. simpl decimal_from.
    now destruct (is_digit ch && _).
  - cbn [parse_loop]. rewrite parse_digit_exact by assumption.
    rewrite (decimal_from_cons uvalue ch).
    change (forallb is_digit (ch :: ch' :: rest))
      with (is_digit ch && forallb is_digit (ch' :: rest)).
    destruct (is_digit ch) eqn:Hd; [|reflexivity].
    pose proof (digit_value_range ch Hd) as Hdv.
    rewrite !andb_true_l.
    destruct (Z.leb_spec (uvalue * 10 + digit_value ch) ulimit) as [Hle|Hgt].
    + apply IH. lia.
    + destruct (forallb is_digit (ch' :: rest)) eqn:Hds; [|reflexivity].
      pose proof (decimal_from_ge (ch' :: rest) (uvalue * 10 + digit_value ch)
                    Hds ltac:(lia)).
      rewrite andb_true_l.
      destruct (Z.leb_spec (decimal_from (uvalue * 10 + digit_value ch) (ch' :: rest))
                  ulimit); [lia|reflexivity].
Qed.

End ScanningLoop.

(** ** What the parser returns *)

Lemma digit_is_not_minus (ch : ascii) : is_digit ch = true -> Ascii.eqb ch "-" = false.
Proof.
  intros Hd. destruct (Ascii.eqb_spec ch "-") as [->|]; [|reflexivity].
  vm_compute in Hd. discriminate.
Qed.

Lemma digit_string_inv (s : list ascii) :
  digit_string s = true ->
  exists ch rest, s = ch :: rest /\ forallb is_digit (ch :: rest) = true.
Proof.
  unfold digit_string. destruct s as [|ch rest]; simpl; [discriminate|].
  intros Hs. now exists ch, rest.
Qed.

Lemma decimal_value_nonneg (s : list ascii) :
  forallb is_digit s = true -> 0 <= decimal_value s.
Proof.
  intros Hs. unfold decimal_value. apply decimal_from_ge; [assumption|lia].
Qed.

(** An input that does not follow the grammar is refused. *)
Lemma ParseInteger_ill_formed (T : IntType) (str : list ascii) (out_value : Z) :
  well_formed T str = false -> ParseInteger T str out_value = Some (false, out_value).
Proof.
  unfold well_formed, ParseInteger. destruct str as [|ch rest]; [reflexivity|].
  destruct (Ascii.eqb ch "-") eqn:Hm.
  - destruct (is_signed T); simpl.
    + destruct rest as [|ch' rest']; [reflexivity|].
      unfold digit_string. simpl negb. rewrite andb_true_l. intros Hnd.
      unfold parse_digits. now rewrite parse_loop_not_digits.
    + intros _. unfold parse_digits. rewrite parse_loop_not_digits; [reflexivity|].
      apply Ascii.eqb_eq in Hm. subst ch. reflexivity.
  - rewrite andb_false_r. unfold digit_string. simpl negb. rewrite andb_true_l.
    intros Hnd. unfold parse_digits. now rewrite parse_loop_not_digits.
Qed.

Section ParseResult.
Variable T : IntType.
Hypothesis HT : IsInteger T.

(** Digits without a sign: accepted exactly when the number they write is at
    most [TypeMax<T>]. *)
Lemma ParseInteger_digits (ds : list ascii) (out_value : Z) :
  digit_string ds = true ->
  ParseInteger T ds out_value =
    if decimal_value ds <=? TypeMax T
    then Some (true, decimal_value ds) else Some (false, out_value).
Proof using HT.
  intros Hds. destruct (digit_string_inv ds Hds) as (ch & rest & -> & Hall).
  assert (Hch : is_digit ch = true) by (simpl in Hall; now destruct (is_digit ch)).
  unfold ParseInteger. rewrite (digit_is_not_minus ch Hch), andb_false_r.
  unfold parse_digits.
  pose proof (parse_limit_bounds T HT false ltac:(discriminate)) as Hb.
  rewrite parse_loop_exact by (cbn [bits make_unsigned]; lia).
  rewrite Hall, andb_true_l. fold (decimal_value (ch :: rest)).
  rewrite (parse_limit_nonnegative T HT).
  destruct (Z.leb_spec (decimal_value (ch :: rest)) (TypeMax T)); [|reflexivity].
  pose proof (decimal_value_nonneg _ Hall).
  now rewrite (parse_value_nonnegative T HT) by lia.
Qed.

(** Digits after a minus sign, for a signed type: accepted exactly when the
    number they write is at most the magnitude of [TypeMin<T>]. *)
Lemma ParseInteger_minus_digits (ds : list ascii) (out_value : Z) :
  is_signed T = true -> digit_string ds = true ->
  ParseInteger T ("-"%char :: ds) out_value =
    if decimal_value ds <=? 2 ^ (bits T - 1)
    then Some (true, - decimal_value ds) else Some (false, out_value).
Proof using HT.
  intros Hs Hds. destruct (digit_string_inv ds Hds) as (ch & rest & -> & Hall).
  unfold ParseInteger. rewrite Hs. simpl andb. cbv iota.
  unfold parse_digits.
  pose proof (parse_limit_bounds T HT true ltac:(auto)) as Hb.
  rewrite parse_loop_exact by (cbn [bits make_unsigned]; lia).
  rewrite Hall, andb_true_l. fold (decimal_value (ch :: rest)).
  rewrite (parse_limit_negative T HT Hs).
  destruct (Z.leb_spec (decimal_value (ch :: rest)) (2 ^ (bits T - 1))); [|reflexivity].
  pose proof (decimal_value_nonneg _ Hall).
  now rewrite (parse_value_negative T HT) by (auto; lia).
Qed.

End ParseResult.

(** ** The loops on the magnitude *)

Lemma format_loop_body (mem : list ascii) (pos : nat) (uval : Z) :
  format_loop mem pos uval =
    match store mem pos (to_char (UChar "0" + uval mod 10)) with
    | None => None
    | Some mem' =>
        if 0 <? uval / 10 then format_loop mem' (S pos) (uval / 10)
        else Some (mem', S pos)
    end.
Proof.
  rewrite format_loop_equation_1.
  destruct (store mem pos _) as [mem'|]; [|reflexivity].
  rewrite format_loop_clause_1_equation_1.
  destruct (Z_lt_dec 0 (uval / 10)) as [Hlt|Hge].
  - rewrite format_loop_clause_1_clause_2_equation_1.
    apply Z.ltb_lt in Hlt. now rewrite Hlt.
  - rewrite format_loop_clause_1_clause_2_equation_2.
    apply Z.ltb_nlt in Hge. now rewrite Hge.
Qed.

Lemma IntegerFormatLenUnsigned_loop_body (value : Z) (len : nat) :
  IntegerFormatLenUnsigned_loop value len =
    if 0 <? value / 10 then IntegerFormatLenUnsigned_loop (value / 10) (S len)
    else S len.
Proof.
  rewrite IntegerFormatLenUnsigned_loop_equation_1.
  destruct (Z_lt_dec 0 (value / 10)) as [Hlt|Hge].
  - rewrite IntegerFormatLenUnsigned_loop_clause_1_equation_1.
    apply Z.ltb_lt in Hlt. now rewrite Hlt.
  - rewrite IntegerFormatLenUnsigned_loop_clause_1_equation_2.
    apply Z.ltb_nlt in Hge. now rewrite Hge.
Qed.

Lemma div10_lt (value : Z) : 0 < value / 10 -> 0 <= value / 10 < value.
Proof.
  intros Hq. split; [lia|].
  destruct (Z_lt_dec 0 value) as [Hpos|Hnp].
  - apply Z.div_lt; lia.
  - pose proof (Z.div_le_upper_bound value 10 0 ltac:(lia) ltac:(lia)). lia.
Qed.

(** The counter the loop is entered with is added to the count. *)
Lemma IntegerFormatLenUnsigned_loop_shift (value : Z) :
  0 <= value ->
  forall len, IntegerFormatLenUnsigned_loop value len
              = (len + IntegerFormatLenUnsigned value)%nat.
Proof.
  intros Hv. pattern value. apply Z_lt_induction; [|assumption].
  clear value Hv. intros value IH len. unfold IntegerFormatLenUnsigned.
  rewrite (IntegerFormatLenUnsigned_loop_body value len),
          (IntegerFormatLenUnsigned_loop_body value 0).
  destruct (Z.ltb_spec 0 (value / 10)) as [Hq|Hq]; [|lia].
  pose proof (div10_lt value Hq).
  rewrite (IH (value / 10)) by lia. rewrite (IH (value / 10) ltac:(lia) 1%nat).
  unfold IntegerFormatLenUnsigned. lia.
Qed.

(** The number of digits, by its recurrence. *)
Lemma IntegerFormatLenUnsigned_step (value : Z) :
  0 <= value ->
  IntegerFormatLenUnsigned value =
    if 0 <? value / 10 then S (IntegerFormatLenUnsigned (value / 10)) else 1%nat.
Proof.
  intros Hv. unfold IntegerFormatLenUnsigned at 1.
  rewrite IntegerFormatLenUnsigned_loop_body.
  destruct (Z.ltb_spec 0 (value / 10)) as [Hq|Hq]; [|reflexivity].
  rewrite IntegerFormatLenUnsigned_loop_shift by lia. reflexivity.
Qed.

Lemma IntegerFormatLenUnsigned_pos (value : Z) :
  0 <= value -> (1 <= IntegerFormatLenUnsigned value)%nat.
Proof.
  intros Hv. rewrite IntegerFormatLenUnsigned_step by assumption.
  destruct (0 <? value / 10); lia.
Qed.

(** A larger value has at least as many digits. *)
Lemma IntegerFormatLenUnsigned_mono (b : Z) :
  0 <= b ->
  forall a, 0 <= a <= b ->
            (IntegerFormatLenUnsigned a <= IntegerFormatLenUnsigned b)%nat.
Proof.
  intros Hb. pattern b. apply Z_lt_induction; [|assumption].
  clear b Hb. intros b IH a Hab.
  rewrite (IntegerFormatLenUnsigned_step a), (IntegerFormatLenUnsigned_step b) by lia.
  pose proof (Z.div_le_mono a b 10 ltac:(lia) ltac:(lia)) as Hdiv.
  destruct (Z.ltb_spec 0 (a / 10)) as [Ha|Ha];
    destruct (Z.ltb_spec 0 (b / 10)) as [Hq|Hq]; try lia.
  pose proof (div10_lt b Hq).
  apply le_n_S. apply IH; lia.
Qed.

(** ** The digit loop of the formatter *)

Lemma store_at (pre : list ascii) (old : ascii) (post : list ascii) (ch : ascii) :
  store (pre ++ old :: post) (length pre) ch = Some (pre ++ ch :: post).
Proof.
  unfold store. rewrite length_app. simpl.
  destruct (Nat.ltb_spec (length pre) (length pre + S (length post))); [|lia].
  rewrite insert_app_r_alt by lia. now rewrite Nat.sub_diag.
Qed.

Lemma leading_nonzero_app (s t : list ascii) :
  leading_nonzero s = true ->
  leading_nonzero (s ++ t) = true /\ (t <> [] -> canonical (s ++ t) = true).
Proof.
  destruct s as [|ch s]; simpl; [discriminate|]. intros Hch. split; [assumption|].
  intros Ht. destruct (s ++ t) eqn:Hst; [|assumption].
  apply app_eq_nil in Hst. tauto.
Qed.

Lemma digit_char (d : Z) :
  0 <= d <= 9 ->
  is_digit (to_char (UChar "0" + d)) = true /\
  digit_value (to_char (UChar "0" + d)) = d /\
  (0 < d -> Ascii.eqb (to_char (UChar "0" + d)) "0" = false).
Proof.
  intros Hd. rewrite UChar_zero.
  assert (Hu : UChar (to_char (48 + d)) = 48 + d) by (apply UChar_to_char; lia).
  repeat split.
  - apply is_digit_range. lia.
  - unfold digit_value. rewrite Hu, UChar_zero. lia.
  - intros Hpos. apply Ascii.eqb_neq. intros Heq.
    rewrite Heq, UChar_zero in Hu. lia.
Qed.

(** The loop writes the digits of [uval], least significant first, over the
    bytes at [pos]; it needs as many bytes as [uval] has digits. *)
Lemma format_loop_writes (uval : Z) :
  0 <= uval ->
  forall pre old post : list ascii,
    length old = IntegerFormatLenUnsigned uval ->
    exists ds : list ascii,
      format_loop (pre ++ old ++ post) (length pre) uval
        = Some (pre ++ ds ++ post, (length pre + length ds)%nat) /\
      length ds = IntegerFormatLenUnsigned uval /\
      forallb is_digit (rev ds) = true /\
      decimal_value (rev ds) = uval /\
      canonical (rev ds) = true /\
      (0 < uval -> leading_nonzero (rev ds) = true).
Proof.
  intros Hv. pattern uval. apply Zlt_0_ind; [|assumption].
  clear uval Hv. intros uval IH Hv pre old post Hlen.
  rewrite IntegerFormatLenUnsigned_step in Hlen |- * by assumption.
  rewrite format_loop_body.
  pose proof (Z.mod_pos_bound uval 10 ltac:(lia)) as Hm.
  destruct (digit_char (uval mod 10) ltac:(lia)) as (Hdig & Hval & Hnz).
  set (ch := to_char (UChar "0" + uval mod 10)) in *.
  destruct old as [|o old]; [destruct (0 <? uval / 10); discriminate|].
  change (pre ++ (o :: old) ++ post) with (pre ++ o :: old ++ post).
  rewrite store_at.
  destruct (Z.ltb_spec 0 (uval / 10)) as [Hq|Hq].
  - pose proof (div10_lt uval Hq) as Hlt.
    simpl in Hlen. injection Hlen as Hlen.
    destruct (IH (uval / 10) Hlt (pre ++ [ch]) old post Hlen)
      as (ds & Hrun & Hds & Hall & Hdec & _ & Hlead).
    exists (ch :: ds).
    rewrite <- !app_assoc in Hrun. simpl in Hrun.
    rewrite length_app in Hrun. simpl in Hrun.
    rewrite Nat.add_1_r in Hrun. rewrite Hrun.
    destruct (leading_nonzero_app (rev ds) [ch] (Hlead Hq)) as [Hl Hc].
    repeat split.
    + simpl. do 2 f_equal. lia.
    + simpl. now rewrite Hds.
    + simpl. rewrite forallb_app, Hall. simpl. now rewrite Hdig.
    + simpl. unfold decimal_value in *. rewrite decimal_from_app, Hdec. simpl.
      rewrite Hval. pose proof (Z.div_mod uval 10 ltac:(lia)). lia.
    + simpl. apply Hc. discriminate.
    + intros _. simpl. exact Hl.
  - assert (Hsmall : uval mod 10 = uval) by (apply Z.mod_small; pose proof (Z.div_mod uval 10 ltac:(lia)); lia).
    destruct old as [|]; [|discriminate].
    exists [ch]. simpl. repeat split.
    + do 2 f_equal. lia.
    + now rewrite Hdig.
    + unfold decimal_value. simpl. lia.
    + intros Hpos. rewrite Hnz by lia. reflexivity.
Qed.

(** ** What the formatter writes *)

Lemma std_reverse_at (pre written post : list ascii) (first last : nat) :
  length pre = first -> last = (first + length written)%nat ->
  std_reverse (pre ++ written ++ post) first last = pre ++ rev written ++ post.
Proof.
  intros <- ->. unfold std_reverse.
  rewrite take_app_length, drop_app_length.
  replace (length pre + length written - length pre)%nat with (length written) by lia.
  rewrite take_app_length. f_equal. f_equal.
  rewrite app_assoc, <- length_app. apply drop_app_length.
Qed.

(** A region of memory cut at [first] and [first + n]. *)
Lemma memory_cut (mem : list ascii) (first n : nat) :
  (first + n <= length mem)%nat ->
  mem = take first mem ++ take n (drop first mem) ++ drop (first + n) mem /\
  length (take first mem) = first /\
  length (take n (drop first mem)) = n.
Proof.
  intros Hle. repeat split.
  - rewrite <- (take_drop first mem) at 1. f_equal.
    rewrite <- (take_drop n (drop first mem)) at 1. f_equal.
    apply drop_drop.
  - apply length_take_le. lia.
  - apply length_take_le. rewrite length_drop. lia.
Qed.

Section FormatResult.
Variable T : IntType.
Hypothesis HT : IsInteger T.

Let UT := make_unsigned T.

Lemma format_length_hardest_value :
  representable T (hardest T) /\
  format_length (hardest T) =
    if is_signed T then S (IntegerFormatLenUnsigned (2 ^ (bits T - 1)))
    else IntegerFormatLenUnsigned (2 ^ bits T - 1).
Proof using HT.
  destruct (half_range T HT) as [Hd Hh].
  unfold hardest, representable, format_length, TypeMin, TypeMax.
  destruct (is_signed T).
  - split; [lia|].
    destruct (Z.ltb_spec (- 2 ^ (bits T - 1)) 0); [|lia].
    replace (Z.abs (- 2 ^ (bits T - 1))) with (2 ^ (bits T - 1)) by lia.
    reflexivity.
  - split; [lia|].
    destruct (Z.ltb_spec (2 ^ bits T - 1) 0); [lia|].
    replace (Z.abs (2 ^ bits T - 1)) with (2 ^ bits T - 1) by lia.
    reflexivity.
Qed.

(** The constant exists for the unsigned types only, and is then the length of
    the text of [TypeMax<T>]. *)
Lemma MaxIntegerFormatLen_instance :
  MaxIntegerFormatLen T =
    if is_signed T then None else Some (format_length (hardest T)).
Proof using HT.
  destruct format_length_hardest_value as [_ Hlen]. rewrite Hlen.
  unfold MaxIntegerFormatLen, MaxIntegerFormatLenBase, IntegerFormatLenUnsigned_of.
  cbn [is_signed make_unsigned]. unfold TypeMax.
  destruct (is_signed T); reflexivity.
Qed.

(** No value of the type has a longer text than the hardest one. *)
Lemma format_length_bound (v : Z) :
  representable T v -> (1 <= format_length v <= format_length (hardest T))%nat.
Proof using HT.
  destruct (half_range T HT) as [Hd Hh].
  destruct format_length_hardest_value as [_ Hlen].
  intros Hv. rewrite Hlen. unfold format_length.
  pose proof (IntegerFormatLenUnsigned_pos (Z.abs v) ltac:(lia)) as Hpos.
  split; [lia|].
  unfold representable, TypeMin, TypeMax in Hv.
  destruct (is_signed T); destruct (Z.ltb_spec v 0) as [Hneg|Hnn]; try lia.
  - pose proof (IntegerFormatLenUnsigned_mono (2 ^ (bits T - 1)) ltac:(lia)
                  (Z.abs v) ltac:(lia)). lia.
  - pose proof (IntegerFormatLenUnsigned_mono (2 ^ (bits T - 1)) ltac:(lia)
                  (Z.abs v) ltac:(lia)). lia.
  - pose proof (IntegerFormatLenUnsigned_mono (2 ^ bits T - 1) ltac:(lia)
                  (Z.abs v) ltac:(lia)). lia.
Qed.

(** The call replaces the bytes at [out_str] by the decimal representation of
    [value] and returns the position after it. *)
Lemma FormatInteger_result (mem : list ascii) (out_str : nat) (value : Z) :
  representable T value ->
  (out_str + format_length value <= length mem)%nat ->
  exists str : list ascii,
    FormatInteger T mem out_str value
      = Some (take out_str mem ++ str ++ drop (out_str + length str) mem,
              (out_str + length str)%nat) /\
    decimal_repr value str /\
    length str = format_length value.
Proof using HT.
  intros Hv Hcap. unfold format_length in *.
  set (n := IntegerFormatLenUnsigned (Z.abs value)) in *.
  assert (Huval : (if value <? 0 then convert UT (uneg UT (convert UT value))
                   else convert UT value) = Z.abs value).
  { destruct (Z.ltb_spec value 0).
    - unfold UT. rewrite (magnitude_of_negative T HT) by assumption. lia.
    - unfold UT. rewrite (magnitude_of_nonnegative T HT) by assumption. lia. }
  unfold FormatInteger. fold UT. cbv zeta. rewrite Huval.
  destruct (memory_cut mem out_str n ltac:(lia)) as (Hmem & Hpre & Hold).
  set (pre := take out_str mem) in *.
  set (old := take n (drop out_str mem)) in *.
  destruct (format_loop_writes (Z.abs value) ltac:(lia) pre old
              (drop (out_str + n) mem) Hold)
    as (ds & Hrun & Hds & Hall & Hdec & Hcan & _).
  rewrite <- Hmem, Hpre in Hrun. rewrite Hrun. cbn [mbind option_bind].
  fold n in Hds.
  destruct (Z.ltb_spec value 0) as [Hneg|Hnn].
  - destruct (drop (out_str + n) mem) as [|p post] eqn:Hpost.
    { apply (f_equal length) in Hpost. rewrite length_drop in Hpost.
      simpl in Hpost. lia. }
    rewrite app_assoc.
    replace (out_str + length ds)%nat with (length (pre ++ ds))
      by (rewrite length_app; lia).
    rewrite store_at. cbn [mbind option_bind].
    exists ("-"%char :: rev ds). repeat split.
    + f_equal. f_equal.
      * assert (Hshape : (pre ++ ds) ++ "-"%char :: post
                         = pre ++ (ds ++ ["-"%char]) ++ post)
          by (rewrite <- !app_assoc; reflexivity).
        assert (Hend : S (length (pre ++ ds))
                       = (out_str + length (ds ++ ["-"%char]))%nat)
          by (rewrite !length_app; simpl; lia).
        rewrite Hshape, (std_reverse_at _ _ _ _ _ Hpre Hend), rev_app_distr.
        simpl. do 3 f_equal.
        rewrite length_rev, Hds.
        replace (out_str + S n)%nat with (out_str + n + 1)%nat by lia.
        rewrite <- drop_drop, Hpost. reflexivity.
      * rewrite !length_app. simpl. rewrite length_rev. lia.
    + exists (rev ds). destruct (Z.ltb_spec value 0); [|lia].
      repeat split; try assumption.
      unfold digit_string. rewrite Hall, length_rev, Hds.
      pose proof (IntegerFormatLenUnsigned_pos (Z.abs value) ltac:(lia)).
      fold n in H0. destruct n; [lia|reflexivity].
    + simpl. rewrite length_rev. lia.
  - cbn [mbind option_bind].
    exists (rev ds). repeat split.
    + f_equal. f_equal.
      * rewrite (std_reverse_at _ _ _ _ _ Hpre eq_refl).
        now rewrite length_rev, Hds.
      * now rewrite length_rev.
    + exists (rev ds). destruct (Z.ltb_spec value 0); [lia|].
      repeat split; try assumption.
      unfold digit_string. rewrite Hall, length_rev, Hds.
      pose proof (IntegerFormatLenUnsigned_pos (Z.abs value) ltac:(lia)).
      fold n in H0. destruct n; [lia|reflexivity].
    + rewrite length_rev. lia.
Qed.

End FormatResult.

(** ** Memory after the call *)

Lemma span_written (mem str : list ascii) (first : nat) :
  (first + length str <= length mem)%nat ->
  span (take first mem ++ str ++ drop (first + length str) mem)
       first (first + length str) = str.
Proof.
  intros Hle. unfold span.
  assert (Hpre : length (take first mem) = first) by (apply length_take_le; lia).
  rewrite drop_app_length' by now rewrite Hpre.
  replace (first + length str - first)%nat with (length str) by lia.
  apply take_app_length.
Qed.

Lemma written_frame (mem str : list ascii) (first : nat) :
  (first + length str <= length mem)%nat ->
  let mem' := take first mem ++ str ++ drop (first + length str) mem in
  length mem' = length mem /\
  forall i : nat, (i < first \/ first + length str <= i)%nat -> mem' !! i = mem !! i.
Proof.
  intros Hle mem'. subst mem'.
  assert (Hpre : length (take first mem) = first) by (apply length_take_le; lia).
  split.
  - rewrite !length_app, Hpre, length_drop. lia.
  - intros i [Hlt|Hge].
    + rewrite lookup_app_l by lia. now apply lookup_take_lt.
    + rewrite app_assoc, lookup_app_r by (rewrite length_app; lia).
      rewrite length_app, Hpre, lookup_drop. f_equal. lia.
Qed.

(** ** Decimal representations *)

Lemma decimal_repr_sign (v : Z) (str : list ascii) :
  decimal_repr v str -> (head str = Some "-"%char <-> v < 0).
Proof.
  intros (ds & -> & Hds & _ & _).
  destruct (Z.ltb_spec v 0) as [Hneg|Hnn]; simpl.
  - tauto.
  - destruct (digit_string_inv ds Hds) as (ch & rest & -> & Hall). simpl.
    split; [|lia]. intros [= ->]. vm_compute in Hall. discriminate.
Qed.

Lemma decimal_repr_zero (str : list ascii) : decimal_repr 0 str -> str = ["0"%char].
Proof.
  intros (ds & -> & Hds & Hcan & Hval). simpl in *.
  destruct (digit_string_inv ds Hds) as (ch & rest & -> & Hall).
  simpl in Hall. apply andb_true_iff in Hall as [Hch Hrest].
  pose proof (digit_value_range ch Hch) as Hd.
  unfold decimal_value in Hval. rewrite decimal_from_cons in Hval.
  pose proof (decimal_from_ge rest (0 * 10 + digit_value ch) Hrest ltac:(lia)) as Hge.
  assert (Hz : ch = "0"%char).
  { apply UChar_inj. unfold digit_value in *. lia. }
  subst ch. destruct rest as [|ch' rest]; [reflexivity|].
  simpl in Hcan. discriminate.
Qed.

(** The two forms of an input that follows the grammar. *)
Lemma well_formed_inv (T : IntType) (str : list ascii) :
  well_formed T str = true ->
  digit_string str = true \/
  (is_signed T = true /\ exists ds, str = "-"%char :: ds /\ digit_string ds = true).
Proof.
  unfold well_formed. destruct str as [|ch rest]; [discriminate|].
  destruct (Ascii.eqb_spec ch "-") as [->|Hne]; [|now left].
  intros H. apply andb_true_iff in H as [Hs Hds]. right. eauto.
Qed.

Section ParseOutcome.
Variable T : IntType.
Hypothesis HT : IsInteger T.

(** The parser accepts the decimal representation of a value of the type, and
    returns the value. *)
Lemma ParseInteger_decimal_repr (v : Z) (str : list ascii) (out_value : Z) :
  representable T v -> decimal_repr v str ->
  ParseInteger T str out_value = Some (true, v).
Proof using HT.
  destruct (half_range T HT) as [Hd Hh].
  intros Hv (ds & -> & Hds & _ & Hval).
  unfold representable, TypeMin, TypeMax in Hv.
  destruct (Z.ltb_spec v 0) as [Hneg|Hnn]; cbn [app].
  - destruct (is_signed T) eqn:Hs; [|lia].
    rewrite (ParseInteger_minus_digits T HT) by assumption.
    rewrite Hval. destruct (Z.leb_spec (Z.abs v) (2 ^ (bits T - 1))); [|lia].
    do 2 f_equal. lia.
  - rewrite (ParseInteger_digits T HT) by assumption.
    rewrite Hval.
    destruct (Z.leb_spec (Z.abs v) (TypeMax T)) as [|Hgt].
    + do 2 f_equal. lia.
    + unfold TypeMax in Hgt. destruct (is_signed T); lia.
Qed.

(** Every call returns; a refused input leaves the output location as it
    was, and an accepted one follows the grammar and stores the number it
    writes, which is a value of the type. *)
Lemma ParseInteger_outcome (str : list ascii) (out_value : Z) :
  ParseInteger T str out_value = Some (false, out_value) \/
  (well_formed T str = true /\ representable T (text_value str) /\
   ParseInteger T str out_value = Some (true, text_value str)).
Proof using HT.
  destruct (half_range T HT) as [Hd Hh].
  destruct (well_formed T str) eqn:Hwf;
    [|left; now apply ParseInteger_ill_formed].
  destruct (well_formed_inv T str Hwf) as [Hds|(Hs & ds & -> & Hds)].
  - rewrite (ParseInteger_digits T HT) by assumption.
    destruct (digit_string_inv str Hds) as (ch & rest & -> & Hall).
    assert (Hch : is_digit ch = true) by (simpl in Hall; now destruct (is_digit ch)).
    pose proof (decimal_value_nonneg _ Hall) as Hnn.
    unfold text_value. rewrite (digit_is_not_minus ch Hch).
    destruct (Z.leb_spec (decimal_value (ch :: rest)) (TypeMax T)); [right|now left].
    repeat split; try reflexivity; try assumption.
    unfold TypeMin. destruct (is_signed T); lia.
  - rewrite (ParseInteger_minus_digits T HT) by assumption.
    destruct (digit_string_inv ds Hds) as (ch & rest & -> & Hall).
    pose proof (decimal_value_nonneg _ Hall) as Hnn.
    unfold text_value. simpl Ascii.eqb. cbv iota.
    destruct (Z.leb_spec (decimal_value (ch :: rest)) (2 ^ (bits T - 1)));
      [right|now left].
    repeat split; try reflexivity; unfold TypeMin, TypeMax; rewrite Hs; lia.
Qed.

End ParseOutcome.

(** ** Properties of the formatter *)

(** C3: for every integer type [T] and value of [T], [FormatInteger] writes the
    decimal representation of the value from the start of the buffer: a
    leading ['-'] exactly when the value is negative, then the digits of the
    magnitude without leading zeros, the value zero giving the one character
    "0"; the pointer returned is one past the last byte written. *)
Theorem FormatInteger_writes_decimal_repr
  (T : IntType) (mem : list ascii) (out_str : nat) (value : Z) :
  IsInteger T -> representable T value ->
  (out_str + format_length (hardest T) <= length mem)%nat ->
  exists (mem' : list ascii) (pos : nat) (str : list ascii),
    FormatInteger T mem out_str value = Some (mem', pos) /\
    pos = (out_str + length str)%nat /\
    span mem' out_str pos = str /\
    decimal_repr value str /\
    (head str = Some "-"%char <-> value < 0) /\
    (value = 0 -> str = ["0"%char]).
Proof.
  intros HT Hv Hcap.
  pose proof (format_length_bound T HT value Hv) as Hlen.
  destruct (FormatInteger_result T HT mem out_str value Hv ltac:(lia))
    as (str & Hrun & Hrepr & Hstr).
  eexists _, _, str. split; [exact Hrun|].
  repeat split.
  - apply span_written. lia.
  - assumption.
  - now apply decimal_repr_sign.
  - now apply decimal_repr_sign.
  - intros ->. now apply decimal_repr_zero.
Qed.

Lemma FormatInteger_writes_decimal_repr_witness :
  IsInteger int8_t /\ representable int8_t (-128) /\
  (1 + format_length (hardest int8_t) <= length (buffer 6))%nat /\
  exists (mem' : list ascii) (pos : nat) (str : list ascii),
    FormatInteger int8_t (buffer 6) 1 (-128) = Some (mem', pos) /\
    pos = (1 + length str)%nat /\
    span mem' 1 pos = str /\
    decimal_repr (-128) str /\
    (head str = Some "-"%char <-> -128 < 0) /\
    (-128 = 0 -> str = ["0"%char]).
Proof.
  assert (H1 : IsInteger int8_t) by (unfold IsInteger; simpl; lia).
  assert (H2 : representable int8_t (-128))
    by (unfold representable, TypeMin, TypeMax; simpl; lia).
  assert (H3 : (1 + format_length (hardest int8_t) <= length (buffer 6))%nat)
    by (vm_compute; lia).
  repeat (split; [assumption|]).
  exact (FormatInteger_writes_decimal_repr int8_t (buffer 6) 1 (-128) H1 H2 H3).
Defined.

(** C9: for every integer type [T] and value of [T], [FormatInteger] writes the
    text of the value, of at least one byte and of at most as many bytes as
    the longest text of [T] has, into the bytes from the start of the buffer
    up to the returned pointer, and changes no other byte: every byte at or
    after the returned pointer (and every byte before the buffer) holds what
    it held before the call.  For an unsigned [T] the upper bound is
    [MaxIntegerFormatLen<T>]; for a signed [T] there is no such constant, its
    specialisation being ill-formed. *)
Theorem FormatInteger_frame
  (T : IntType) (mem : list ascii) (out_str : nat) (value : Z) :
  IsInteger T -> representable T value ->
  (out_str + format_length (hardest T) <= length mem)%nat ->
  exists (mem' : list ascii) (pos : nat) (str : list ascii),
    FormatInteger T mem out_str value = Some (mem', pos) /\
    pos = (out_str + length str)%nat /\
    span mem' out_str pos = str /\
    decimal_repr value str /\
    (1 <= length str <= format_length (hardest T))%nat /\
    length mem' = length mem /\
    (forall i : nat, (i < out_str \/ pos <= i)%nat -> mem' !! i = mem !! i) /\
    MaxIntegerFormatLen T
    = (if is_signed T then None else Some (format_length (hardest T))).
Proof.
  intros HT Hv Hcap.
  pose proof (format_length_bound T HT value Hv) as Hlen.
  destruct (FormatInteger_result T HT mem out_str value Hv ltac:(lia))
    as (str & Hrun & Hrepr & Hstr).
  destruct (written_frame mem str out_str ltac:(lia)) as [Hsame Hframe].
  eexists _, _, str. split; [exact Hrun|].
  split; [reflexivity|]. split; [apply span_written; lia|].
  split; [exact Hrepr|]. split; [lia|]. split; [exact Hsame|].
  split; [exact Hframe|]. apply (MaxIntegerFormatLen_instance T HT).
Qed.

Lemma FormatInteger_frame_witness :
  IsInteger int8_t /\ representable int8_t (-7) /\
  (2 + format_length (hardest int8_t) <= length (buffer 6))%nat /\
  exists (mem' : list ascii) (pos : nat) (str : list ascii),
    FormatInteger int8_t (buffer 6) 2 (-7) = Some (mem', pos) /\
    pos = (2 + length str)%nat /\
    span mem' 2 pos = str /\
    decimal_repr (-7) str /\
    (1 <= length str <= format_length (hardest int8_t))%nat /\
    length mem' = length (buffer 6) /\
    (forall i : nat, (i < 2 \/ pos <= i)%nat -> mem' !! i = buffer 6 !! i) /\
    MaxIntegerFormatLen int8_t
    = (if is_signed int8_t then None else Some (format_length (hardest int8_t))).
Proof.
  assert (H1 : IsInteger int8_t) by (unfold IsInteger; simpl; lia).
  assert (H2 : representable int8_t (-7))
    by (unfold representable, TypeMin, TypeMax; simpl; lia).
  assert (H3 : (2 + format_length (hardest int8_t) <= length (buffer 6))%nat)
    by (vm_compute; lia).
  split; [exact H1|]. split; [exact H2|]. split; [exact H3|].
  exact (FormatInteger_frame int8_t (buffer 6) 2 (-7) H1 H2 H3).
Defined.

(** C2: for a signed [T] the constant [MaxIntegerFormatLen<T>] does not exist:
    the plain [if] of [MaxIntegerFormatLenBase] names
    [IntegerFormatLenUnsigned<T>], whose [static_assert] refuses a signed [T].
    The bound that the constant is meant to be exists all the same: the text
    that [FormatInteger] writes for the minimum of [T] is the longest text of
    a value of [T]. *)
Theorem MaxIntegerFormatLen_signed_ill_formed
  (T : IntType) (mem : list ascii) (out_str : nat) :
  IsInteger T -> is_signed T = true ->
  (out_str + format_length (TypeMin T) <= length mem)%nat ->
  MaxIntegerFormatLen T = None /\
  representable T (TypeMin T) /\
  exists (mem' : list ascii) (str : list ascii),
    FormatInteger T mem out_str (TypeMin T)
      = Some (mem', (out_str + length str)%nat) /\
    span mem' out_str (out_str + length str) = str /\
    decimal_repr (TypeMin T) str /\
    forall value : Z, representable T value ->
                      (1 <= format_length value <= length str)%nat.
Proof.
  intros HT Hs Hcap.
  assert (Hhard : hardest T = TypeMin T) by (unfold hardest; now rewrite Hs).
  destruct (format_length_hardest_value T HT) as [Hv _]. rewrite Hhard in Hv.
  split; [rewrite (MaxIntegerFormatLen_instance T HT); now rewrite Hs|].
  split; [exact Hv|].
  destruct (FormatInteger_result T HT mem out_str _ Hv Hcap)
    as (str & Hrun & Hrepr & Hstr).
  exists (take out_str mem ++ str ++ drop (out_str + length str) mem), str.
  split; [exact Hrun|]. split; [apply span_written; lia|].
  split; [exact Hrepr|].
  intros value Hvalue. rewrite Hstr, <- Hhard.
  apply (format_length_bound T HT value Hvalue).
Qed.

Lemma MaxIntegerFormatLen_signed_ill_formed_witness :
  IsInteger int8_t /\ is_signed int8_t = true /\
  (0 + format_length (TypeMin int8_t) <= length (buffer 4))%nat /\
  MaxIntegerFormatLen int8_t = None /\
  representable int8_t (TypeMin int8_t) /\
  exists (mem' : list ascii) (str : list ascii),
    FormatInteger int8_t (buffer 4) 0 (TypeMin int8_t)
      = Some (mem', (0 + length str)%nat) /\
    span mem' 0 (0 + length str) = str /\
    decimal_repr (TypeMin int8_t) str /\
    forall value : Z, representable int8_t value ->
                      (1 <= format_length value <= length str)%nat.
Proof.
  assert (H1 : IsInteger int8_t) by (unfold IsInteger; simpl; lia).
  assert (H2 : is_signed int8_t = true) by reflexivity.
  assert (H3 : (0 + format_length (TypeMin int8_t) <= length (buffer 4))%nat)
    by (vm_compute; lia).
  split; [exact H1|]. split; [exact H2|]. split; [exact H3|].
  exact (MaxIntegerFormatLen_signed_ill_formed int8_t (buffer 4) 0 H1 H2 H3).
Defined.

(** ** The round trip *)

(** C1: for every integer type [T] and every value of [T], the characters that
    [FormatInteger] writes for the value are accepted by [ParseInteger], which
    returns the value; no step of either call is undefined.  This includes the
    minimum of a signed [T]. *)
Theorem FormatInteger_ParseInteger_roundtrip
  (T : IntType) (mem : list ascii) (out_str : nat) (out_value : Z) :
  IsInteger T ->
  (out_str + format_length (hardest T) <= length mem)%nat ->
  (forall value : Z, representable T value ->
     exists (mem' : list ascii) (pos : nat),
       FormatInteger T mem out_str value = Some (mem', pos) /\
       ParseInteger T (span mem' out_str pos) out_value = Some (true, value)) /\
  (is_signed T = true ->
   TypeMin T = - 2 ^ (bits T - 1) /\
   exists (mem' : list ascii) (pos : nat),
     FormatInteger T mem out_str (TypeMin T) = Some (mem', pos) /\
     ParseInteger T (span mem' out_str pos) out_value = Some (true, TypeMin T)).
Proof.
  intros HT Hcap.
  assert (Hround : forall value : Z, representable T value ->
            exists (mem' : list ascii) (pos : nat),
              FormatInteger T mem out_str value = Some (mem', pos) /\
              ParseInteger T (span mem' out_str pos) out_value = Some (true, value)).
  { intros value Hv.
    pose proof (format_length_bound T HT value Hv) as Hlen.
    destruct (FormatInteger_result T HT mem out_str value Hv ltac:(lia))
      as (str & Hrun & Hrepr & Hstr).
    eexists _, _. split; [exact Hrun|].
    rewrite span_written by lia.
    now apply ParseInteger_decimal_repr. }
  split; [exact Hround|].
  intros Hs. destruct (half_range T HT) as [Hd Hh].
  split; [unfold TypeMin; now rewrite Hs|].
  apply Hround. unfold representable, TypeMin, TypeMax. rewrite Hs. lia.
Qed.

Lemma FormatInteger_ParseInteger_roundtrip_witness :
  IsInteger int64_t /\
  (0 + format_length (hardest int64_t) <= length (buffer 20))%nat /\
  is_signed int64_t = true /\
  TypeMin int64_t = - 2 ^ (bits int64_t - 1) /\
  exists (mem' : list ascii) (pos : nat),
    FormatInteger int64_t (buffer 20) 0 (TypeMin int64_t) = Some (mem', pos) /\
    ParseInteger int64_t (span mem' 0 pos) 0 = Some (true, TypeMin int64_t).
Proof.
  assert (H1 : IsInteger int64_t) by (unfold IsInteger; simpl; lia).
  assert (H2 : (0 + format_length (hardest int64_t) <= length (buffer 20))%nat)
    by (vm_compute; lia).
  assert (H3 : is_signed int64_t = true) by reflexivity.
  repeat (split; [assumption|]).
  exact (proj2 (FormatInteger_ParseInteger_roundtrip int64_t (buffer 20) 0 0 H1 H2) H3).
Defined.

(** ** Properties of the parser *)

(** C4: for every integer type [T], every span and every prior content of the
    output location, the call returns, and if it returns false the output
    location holds what it held before the call. *)
Theorem ParseInteger_failure_leaves_output
  (T : IntType) (str : list ascii) (out_value : Z) :
  IsInteger T ->
  exists (ok : bool) (out_value' : Z),
    ParseInteger T str out_value = Some (ok, out_value') /\
    (ok = false -> out_value' = out_value).
Proof.
  intros HT.
  destruct (ParseInteger_outcome T HT str out_value) as [Hno|(_ & _ & Hyes)].
  - exists false, out_value. split; [exact Hno|reflexivity].
  - exists true, (text_value str). split; [exact Hyes|discriminate].
Qed.

Lemma ParseInteger_failure_leaves_output_witness :
  IsInteger int8_t /\
  exists (ok : bool) (out_value' : Z),
    ParseInteger int8_t (text "-129") 77 = Some (ok, out_value') /\
    (ok = false -> out_value' = 77).
Proof.
  assert (H1 : IsInteger int8_t) by (unfold IsInteger; simpl; lia).
  split; [assumption|].
  exact (ParseInteger_failure_leaves_output int8_t (text "-129") 77 H1).
Defined.

(** C5: for every integer type [T], [ParseInteger] returns false for every
    input that is not an optional single leading ['-'], permitted only when [T]
    is signed, followed by one or more decimal digits: the empty string, "-",
    "+5", "12a", "--3", " 5" and "5 " are refused, and so is every input that
    begins with ['-'] when [T] is unsigned. *)
Theorem ParseInteger_rejects_ill_formed (T : IntType) (out_value : Z) :
  (forall str : list ascii,
     well_formed T str = false ->
     ParseInteger T str out_value = Some (false, out_value)) /\
  Forall (fun s : string => ParseInteger T (text s) out_value = Some (false, out_value))
         [""; "-"; "+5"; "12a"; "--3"; " 5"; "5 "]%string /\
  (is_signed T = false ->
   forall rest : list ascii,
     ParseInteger T ("-"%char :: rest) out_value = Some (false, out_value)).
Proof.
  split; [|split].
  - intros str Hwf. now apply ParseInteger_ill_formed.
  - repeat constructor; apply ParseInteger_ill_formed; unfold well_formed;
      cbn; try reflexivity; apply andb_false_r.
  - intros Hu rest. apply ParseInteger_ill_formed. simpl. now rewrite Hu.
Qed.

Lemma ParseInteger_rejects_ill_formed_witness :
  well_formed int8_t (text "12a") = false /\
  ParseInteger int8_t (text "12a") 77 = Some (false, 77) /\
  is_signed uint8_t = false /\
  ParseInteger uint8_t ("-"%char :: text "1") 77 = Some (false, 77).
Proof.
  assert (H1 : well_formed int8_t (text "12a") = false) by reflexivity.
  assert (H2 : is_signed uint8_t = false) by reflexivity.
  split; [assumption|]. split.
  - exact (proj1 (ParseInteger_rejects_ill_formed int8_t 77) (text "12a") H1).
  - split; [assumption|].
    exact (proj2 (proj2 (ParseInteger_rejects_ill_formed uint8_t 77)) H2 (text "1")).
Defined.




(** C7: at the boundaries of the 8-bit types [ParseInteger] accepts the values
    in range and no others: for the signed type "-128" gives -128, "-129" is
    refused, "127" gives 127 and "128" is refused; for the unsigned type "255"
    gives 255, and "256" and "-1" are refused. *)
Theorem ParseInteger_8bit_boundaries (out_value : Z) :
  ParseInteger int8_t (text "-128") out_value = Some (true, -128) /\
  ParseInteger int8_t (text "-129") out_value = Some (false, out_value) /\
  ParseInteger int8_t (text "127") out_value = Some (true, 127) /\
  ParseInteger int8_t (text "128") out_value = Some (false, out_value) /\
  ParseInteger uint8_t (text "255") out_value = Some (true, 255) /\
  ParseInteger uint8_t (text "256") out_value = Some (false, out_value) /\
  ParseInteger uint8_t (text "-1") out_value = Some (false, out_value).
Proof.
  repeat split; reflexivity.
Qed.

Lemma parse_loop_state (UT : IntType) (ulimit : Z) (rest : list ascii) :
  forall (uvalue : Z) (ch : ascii) (result : Z),
    loop_state UT ulimit uvalue ->
    parse_loop UT ulimit (ulimit / 10) uvalue ch rest = Some result ->
    loop_state UT ulimit result.
Proof.
  induction rest as [|ch' rest IH]; intros uvalue ch result Hst; cbn [parse_loop];
    destruct (parse_digit UT ulimit (ulimit / 10) uvalue ch) as [uvalue'|] eqn:Hstep;
    try discriminate.
  - intros [= <-]. eapply loop_next; eassumption.
  - apply IH. eapply loop_next; eassumption.
Qed.

Lemma loop_state_bounds (UT : IntType) (ulimit uvalue : Z) :
  0 <= ulimit < 2 ^ bits UT -> loop_state UT ulimit uvalue -> 0 <= uvalue <= ulimit.
Proof.
  intros Hlimit Hst. induction Hst as [|uvalue uvalue' ch Hst IH Hstep]; [lia|].
  rewrite (parse_digit_exact UT ulimit Hlimit) in Hstep by assumption.
  destruct (is_digit ch) eqn:Hd; [|discriminate].
  pose proof (digit_value_range ch Hd).
  destruct (Z.leb_spec (uvalue * 10 + digit_value ch) ulimit); [|discriminate].
  injection Hstep as <-. lia.
Qed.

(** C8: throughout the scanning loop of [ParseInteger] the accumulator [uvalue]
    is at most [ulimit], the magnitude of the minimum of [T] after a ['-'] and
    the maximum of [T] otherwise; under this invariant [uvalue * 10], executed
    after the first guard, and [uvalue + digit_val], executed after the second,
    do not wrap around the unsigned type (nor does [ulimit - uvalue]); so the
    value stored on success is the number the input writes and is a value of
    [T]: no input out of range is accepted. *)
Theorem ParseInteger_accumulator_invariant (T : IntType) (isNegative : bool) :
  IsInteger T -> (isNegative = true -> is_signed T = true) ->
  let UT := make_unsigned T in
  let ulimit := parse_limit T isNegative in
  ulimit = (if isNegative then - TypeMin T else TypeMax T) /\
  (forall (ch : ascii) (rest : list ascii) (uvalue : Z),
     parse_loop UT ulimit (ulimit / 10) 0 ch rest = Some uvalue ->
     loop_state UT ulimit uvalue) /\
  (forall uvalue : Z, loop_state UT ulimit uvalue ->
     0 <= uvalue <= ulimit /\
     ((ulimit / 10 <? uvalue) = false ->
      umul UT uvalue 10 = uvalue * 10 /\
      uvalue * 10 <= ulimit /\
      usub UT ulimit (uvalue * 10) = ulimit - uvalue * 10 /\
      forall digit_val : Z,
        0 <= digit_val ->
        (usub UT ulimit (uvalue * 10) <? digit_val) = false ->
        uadd UT (uvalue * 10) digit_val = uvalue * 10 + digit_val /\
        uvalue * 10 + digit_val <= ulimit) /\
     (forall (ch : ascii) (uvalue' : Z),
        parse_digit UT ulimit (ulimit / 10) uvalue ch = Some uvalue' ->
        is_digit ch = true /\ uvalue' = uvalue * 10 + digit_value ch)) /\
  (forall (str : list ascii) (out_value v : Z),
     ParseInteger T str out_value = Some (true, v) ->
     v = text_value str /\ representable T v).
Proof.
  intros HT Hsign UT ulimit.
  destruct (half_range T HT) as [Hd Hh].
  pose proof (parse_limit_bounds T HT isNegative Hsign) as Hlimit.
  fold ulimit in Hlimit. change (bits T) with (bits UT) in Hlimit.
  split; [|split; [|split]].
  - subst ulimit. destruct isNegative.
    + rewrite (parse_limit_negative T HT) by auto.
      unfold TypeMin. rewrite Hsign by reflexivity. lia.
    + apply (parse_limit_nonnegative T HT).
  - intros ch rest uvalue. apply parse_loop_state. constructor.
  - intros uvalue Hst.
    pose proof (loop_state_bounds UT ulimit uvalue Hlimit Hst) as Hu.
    split; [exact Hu|]. split.
    + intros Hguard. apply Z.ltb_ge in Hguard.
      pose proof (Z.mul_div_le ulimit 10 ltac:(lia)) as Hlo.
      assert (Hmul : umul UT uvalue 10 = uvalue * 10)
        by (unfold umul; apply Z.mod_small; lia).
      assert (Hsub : usub UT ulimit (uvalue * 10) = ulimit - uvalue * 10)
        by (unfold usub; apply Z.mod_small; lia).
      split; [exact Hmul|]. split; [lia|]. split; [exact Hsub|].
      intros digit_val Hnn Hguard2. rewrite Hsub in Hguard2.
      apply Z.ltb_ge in Hguard2.
      split; [|lia]. unfold uadd. apply Z.mod_small. lia.
    + intros ch uvalue' Hstep.
      rewrite (parse_digit_exact UT ulimit Hlimit) in Hstep by assumption.
      destruct (is_digit ch); [|discriminate].
      destruct (uvalue * 10 + digit_value ch <=? ulimit); [|discriminate].
      injection Hstep as <-. now split.
  - intros str out_value v Hrun.
    destruct (ParseInteger_outcome T HT str out_value) as [Hno|(_ & Hrep & Hyes)].
    + rewrite Hno in Hrun. discriminate.
    + rewrite Hyes in Hrun. injection Hrun as <-. now split.
Qed.

Lemma ParseInteger_accumulator_invariant_witness :
  IsInteger int8_t /\ (true = true -> is_signed int8_t = true) /\
  loop_state (make_unsigned int8_t) (parse_limit int8_t true) 12 /\
  (parse_limit int8_t true / 10 <? 12) = false /\
  0 <= 12 <= parse_limit int8_t true /\
  umul (make_unsigned int8_t) 12 10 = 12 * 10 /\
  12 * 10 <= parse_limit int8_t true.
Proof.
  assert (H1 : IsInteger int8_t) by (unfold IsInteger; simpl; lia).
  assert (H2 : true = true -> is_signed int8_t = true) by reflexivity.
  assert (H3 : loop_state (make_unsigned int8_t) (parse_limit int8_t true) 12).
  { apply (loop_next _ _ 1 12 "2"); [|reflexivity].
    apply (loop_next _ _ 0 1 "1"); [|reflexivity]. constructor. }
  assert (H4 : (parse_limit int8_t true / 10 <? 12) = false) by reflexivity.
  repeat (split; [assumption|]).
  destruct (ParseInteger_accumulator_invariant int8_t true H1 H2)
    as (_ & _ & Hinv & _).
  destruct (Hinv 12 H3) as (Hb & Hmul & _).
  destruct (Hmul H4) as (Hm & Hle & _).
  split; [exact Hb|]. split; [exact Hm|exact Hle].
Defined.

(** C10: for every integer type [T], [ParseInteger] accepts digit strings with
    redundant leading zeros: any digit string, after a ['-'] when [T] is
    signed, whose number is a value of [T] is accepted with that number, for
    example "007", "000" and, for a signed [T], "-007"; so every text that
    [FormatInteger] writes is accepted, and "007" is accepted although
    [FormatInteger] never writes it. *)
Theorem ParseInteger_accepts_leading_zeros (T : IntType) (out_value : Z) :
  IsInteger T ->
  (forall ds : list ascii,
     digit_string ds = true -> representable T (decimal_value ds) ->
     ParseInteger T ds out_value = Some (true, decimal_value ds)) /\
  (is_signed T = true ->
   forall ds : list ascii,
     digit_string ds = true -> representable T (- decimal_value ds) ->
     ParseInteger T ("-"%char :: ds) out_value = Some (true, - decimal_value ds)) /\
  ParseInteger T (text "007") out_value = Some (true, 7) /\
  ParseInteger T (text "000") out_value = Some (true, 0) /\
  (is_signed T = true -> ParseInteger T (text "-007") out_value = Some (true, -7)) /\
  (forall (mem : list ascii) (out_str : nat) (value : Z),
     representable T value ->
     (out_str + format_length (hardest T) <= length mem)%nat ->
     exists (mem' : list ascii) (pos : nat),
       FormatInteger T mem out_str value = Some (mem', pos) /\
       ParseInteger T (span mem' out_str pos) out_value = Some (true, value) /\
       span mem' out_str pos <> text "007").
Proof.
  intros HT. destruct (half_range T HT) as [Hd Hh].
  pose proof (TypeMax_bounds T HT) as Hmax.
  assert (Hpos : forall ds : list ascii,
             digit_string ds = true -> representable T (decimal_value ds) ->
             ParseInteger T ds out_value = Some (true, decimal_value ds)).
  { intros ds Hds [_ Hle]. rewrite (ParseInteger_digits T HT) by assumption.
    destruct (Z.leb_spec (decimal_value ds) (TypeMax T)); [reflexivity|lia]. }
  assert (Hneg : is_signed T = true ->
             forall ds : list ascii,
               digit_string ds = true -> representable T (- decimal_value ds) ->
               ParseInteger T ("-"%char :: ds) out_value
               = Some (true, - decimal_value ds)).
  { intros Hs ds Hds [Hge _]. unfold TypeMin in Hge. rewrite Hs in Hge.
    rewrite (ParseInteger_minus_digits T HT) by assumption.
    destruct (Z.leb_spec (decimal_value ds) (2 ^ (bits T - 1))); [reflexivity|lia]. }
  assert (Hsmall : forall x : Z, 0 <= x <= 7 -> representable T x).
  { intros x Hx. unfold representable, TypeMin. destruct (is_signed T); lia. }
  split; [exact Hpos|]. split; [exact Hneg|]. split; [|split; [|split]].
  - apply (Hpos (text "007")); [reflexivity|]. apply Hsmall. vm_compute.
    split; discriminate.
  - apply (Hpos (text "000")); [reflexivity|]. apply Hsmall. vm_compute.
    split; discriminate.
  - intros Hs. apply (Hneg Hs (text "007")); [reflexivity|].
    change (- decimal_value (text "007")) with (-7).
    unfold representable, TypeMin, TypeMax. rewrite Hs. lia.
  - intros mem out_str value Hv Hcap.
    pose proof (format_length_bound T HT value Hv) as Hlen.
    destruct (FormatInteger_result T HT mem out_str value Hv ltac:(lia))
      as (str & Hrun & Hrepr & Hstr).
    eexists _, _. split; [exact Hrun|].
    rewrite span_written by lia. split.
    + now apply ParseInteger_decimal_repr.
    + destruct Hrepr as (ds & -> & _ & Hcan & _).
      destruct (value <? 0); cbn [app]; [discriminate|].
      intros ->. vm_compute in Hcan. discriminate.
Qed.

Lemma ParseInteger_accepts_leading_zeros_witness :
  IsInteger int8_t /\
  digit_string (text "000127") = true /\
  representable int8_t (decimal_value (text "000127")) /\
  ParseInteger int8_t (text "000127") 77 = Some (true, decimal_value (text "000127")).
Proof.
  assert (H1 : IsInteger int8_t) by (unfold IsInteger; simpl; lia).
  assert (H2 : digit_string (text "000127") = true) by reflexivity.
  assert (H3 : representable int8_t (decimal_value (text "000127")))
    by (vm_compute; split; discriminate).
  repeat (split; [assumption|]).
  exact (proj1 (ParseInteger_accepts_leading_zeros int8_t 77 H1) (text "000127") H2 H3).
Defined.

(** * Further properties *)

(** ** The digit count and the length bound *)

(** The count is the number of decimal digits: the value lies between the
    powers of ten around it. *)
Lemma IntegerFormatLenUnsigned_pow10 (value : Z) :
  0 <= value ->
  value < 10 ^ Z.of_nat (IntegerFormatLenUnsigned value) /\
  (0 < value -> 10 ^ (Z.of_nat (IntegerFormatLenUnsigned value) - 1) <= value) /\
  (value < 10 -> IntegerFormatLenUnsigned value = 1%nat).
Proof.
  intros Hv. pattern value. apply Zlt_0_ind; [|assumption].
  clear value Hv. intros value IH Hv.
  rewrite IntegerFormatLenUnsigned_step by assumption.
  pose proof (Z.div_mod value 10 ltac:(lia)) as Hdm.
  pose proof (Z.mod_pos_bound value 10 ltac:(lia)) as Hm.
  destruct (Z.ltb_spec 0 (value / 10)) as [Hq|Hq].
  - destruct (IH (value / 10) (div10_lt value Hq)) as (Hup & Hlo & _).
    specialize (Hlo Hq).
    set (n := IntegerFormatLenUnsigned (value / 10)) in *.
    pose proof (IntegerFormatLenUnsigned_pos (value / 10) ltac:(lia)) as Hn.
    fold n in Hn.
    rewrite Nat2Z.inj_succ, Z.pow_succ_r by lia.
    replace (Z.succ (Z.of_nat n) - 1) with (Z.succ (Z.of_nat n - 1)) by lia.
    rewrite Z.pow_succ_r by lia. repeat split; lia.
  - change (Z.of_nat 1) with 1. change (10 ^ 1) with 10. change (10 ^ (1 - 1)) with 1.
    repeat split; lia.
Qed.

(** X1: [IntegerFormatLenUnsigned] returns the number of decimal digits of its
    argument: the count [n] is at least one, the value is below [10^n] and, when
    it is not zero, at least [10^(n-1)]; a value below ten, zero included, has
    one digit. *)
Theorem IntegerFormatLenUnsigned_counts_digits (value : Z) :
  0 <= value ->
  let n := Z.of_nat (IntegerFormatLenUnsigned value) in
  1 <= n /\ value < 10 ^ n /\
  (0 < value -> 10 ^ (n - 1) <= value) /\
  (value < 10 -> n = 1).
Proof.
  intros Hv n. subst n.
  destruct (IntegerFormatLenUnsigned_pow10 value Hv) as (Hup & Hlo & Hone).
  pose proof (IntegerFormatLenUnsigned_pos value Hv).
  split; [lia|]. split; [assumption|]. split; [assumption|].
  intros Hlt. rewrite (Hone Hlt). reflexivity.
Qed.

Lemma IntegerFormatLenUnsigned_counts_digits_witness :
  0 <= 65535 /\
  let n := Z.of_nat (IntegerFormatLenUnsigned 65535) in
  1 <= n /\ 65535 < 10 ^ n /\
  (0 < 65535 -> 10 ^ (n - 1) <= 65535) /\
  (65535 < 10 -> n = 1).
Proof.
  assert (H1 : 0 <= 65535) by lia.
  split; [assumption|].
  exact (IntegerFormatLenUnsigned_counts_digits 65535 H1).
Defined.

(** X2: [MaxIntegerFormatLen<T>] can be instantiated exactly for the unsigned
    types, and is then the number of decimal digits of [TypeMax<T>]: the
    constant [n] is at least one and [TypeMax<T>] lies in [10^(n-1), 10^n). *)
Theorem MaxIntegerFormatLen_instantiates_for_unsigned (T : IntType) :
  IsInteger T ->
  (MaxIntegerFormatLen T = None <-> is_signed T = true) /\
  (is_signed T = false ->
   exists n : nat,
     MaxIntegerFormatLen T = Some n /\
     1 <= Z.of_nat n /\
     10 ^ (Z.of_nat n - 1) <= TypeMax T < 10 ^ Z.of_nat n).
Proof.
  intros HT. destruct (half_range T HT) as [Hd Hh].
  rewrite (MaxIntegerFormatLen_instance T HT).
  destruct (format_length_hardest_value T HT) as [_ Hlen]. rewrite Hlen.
  destruct (is_signed T) eqn:Hs.
  - split; [tauto|discriminate].
  - split; [split; discriminate|]. intros _.
    exists (IntegerFormatLenUnsigned (2 ^ bits T - 1)). split; [reflexivity|].
    unfold TypeMax. rewrite Hs.
    destruct (IntegerFormatLenUnsigned_pow10 (2 ^ bits T - 1) ltac:(lia))
      as (Hup & Hlo & _).
    pose proof (IntegerFormatLenUnsigned_pos (2 ^ bits T - 1) ltac:(lia)).
    specialize (Hlo ltac:(lia)). lia.
Qed.

Lemma MaxIntegerFormatLen_instantiates_for_unsigned_witness :
  IsInteger uint64_t /\ is_signed uint64_t = false /\
  exists n : nat,
    MaxIntegerFormatLen uint64_t = Some n /\
    1 <= Z.of_nat n /\
    10 ^ (Z.of_nat n - 1) <= TypeMax uint64_t < 10 ^ Z.of_nat n.
Proof.
  assert (H1 : IsInteger uint64_t) by (unfold IsInteger; simpl; lia).
  assert (H2 : is_signed uint64_t = false) by reflexivity.
  split; [exact H1|]. split; [exact H2|].
  exact (proj2 (MaxIntegerFormatLen_instantiates_for_unsigned uint64_t H1) H2).
Defined.

(** X3: for an unsigned [T], [MaxIntegerFormatLen<T>] bytes are enough for
    [FormatInteger] on every value of [T], whose text is never longer, and are
    all used for [TypeMax<T>], whose text has exactly that length. *)
Theorem MaxIntegerFormatLen_unsigned_bound_tight
  (T : IntType) (mem : list ascii) (out_str : nat) :
  IsInteger T -> is_signed T = false ->
  exists n : nat,
    MaxIntegerFormatLen T = Some n /\
    ((out_str + n <= length mem)%nat ->
     (forall value : Z, representable T value ->
        exists (mem' : list ascii) (str : list ascii),
          FormatInteger T mem out_str value
            = Some (mem', (out_str + length str)%nat) /\
          span mem' out_str (out_str + length str) = str /\
          decimal_repr value str /\
          (1 <= length str <= n)%nat) /\
     (representable T (TypeMax T) /\
      exists (mem' : list ascii) (str : list ascii),
        FormatInteger T mem out_str (TypeMax T) = Some (mem', (out_str + n)%nat) /\
        span mem' out_str (out_str + n) = str /\
        decimal_repr (TypeMax T) str /\
        length str = n)).
Proof.
  intros HT Hu.
  assert (Hhard : hardest T = TypeMax T) by (unfold hardest; now rewrite Hu).
  destruct (format_length_hardest_value T HT) as [Hmax _]. rewrite Hhard in Hmax.
  exists (format_length (TypeMax T)). split.
  { rewrite (MaxIntegerFormatLen_instance T HT), Hu. now rewrite Hhard. }
  intros Hcap. split.
  - intros value Hv.
    pose proof (format_length_bound T HT value Hv) as Hlen. rewrite Hhard in Hlen.
    destruct (FormatInteger_result T HT mem out_str value Hv ltac:(lia))
      as (str & Hrun & Hrepr & Hstr).
    eexists _, str. split; [exact Hrun|].
    split; [apply span_written; lia|]. split; [exact Hrepr|lia].
  - split; [exact Hmax|].
    destruct (FormatInteger_result T HT mem out_str _ Hmax Hcap)
      as (str & Hrun & Hrepr & Hstr).
    eexists _, str. rewrite <- Hstr. split; [exact Hrun|].
    split; [apply span_written; lia|]. split; [exact Hrepr|reflexivity].
Qed.

Lemma MaxIntegerFormatLen_unsigned_bound_tight_witness :
  IsInteger uint8_t /\ is_signed uint8_t = false /\
  MaxIntegerFormatLen uint8_t = Some 3%nat /\
  (1 + 3 <= length (buffer 5))%nat /\
  exists n : nat,
    MaxIntegerFormatLen uint8_t = Some n /\
    ((1 + n <= length (buffer 5))%nat ->
     (forall value : Z, representable uint8_t value ->
        exists (mem' : list ascii) (str : list ascii),
          FormatInteger uint8_t (buffer 5) 1 value
            = Some (mem', (1 + length str)%nat) /\
          span mem' 1 (1 + length str) = str /\
          decimal_repr value str /\
          (1 <= length str <= n)%nat) /\
     (representable uint8_t (TypeMax uint8_t) /\
      exists (mem' : list ascii) (str : list ascii),
        FormatInteger uint8_t (buffer 5) 1 (TypeMax uint8_t)
          = Some (mem', (1 + n)%nat) /\
        span mem' 1 (1 + n) = str /\
        decimal_repr (TypeMax uint8_t) str /\
        length str = n)).
Proof.
  assert (H1 : IsInteger uint8_t) by (unfold IsInteger; simpl; lia).
  assert (H2 : is_signed uint8_t = false) by reflexivity.
  assert (H3 : MaxIntegerFormatLen uint8_t = Some 3%nat) by reflexivity.
  assert (H4 : (1 + 3 <= length (buffer 5))%nat) by (vm_compute; lia).
  split; [exact H1|]. split; [exact H2|]. split; [exact H3|]. split; [exact H4|].
  exact (MaxIntegerFormatLen_unsigned_bound_tight uint8_t (buffer 5) 1 H1 H2).
Defined.

(** ** The formatter and its buffer *)

Lemma store_at_end (mem : list ascii) (pos : nat) (ch : ascii) :
  (length mem <= pos)%nat -> store mem pos ch = None.
Proof.
  intros Hle. unfold store.
  destruct (Nat.ltb_spec pos (length mem)); [lia|reflexivity].
Qed.

(** The loop leaves the memory it may write when the digits do not fit. *)
Lemma format_loop_short (uval : Z) :
  0 <= uval ->
  forall (mem : list ascii) (pos : nat),
    (length mem < pos + IntegerFormatLenUnsigned uval)%nat ->
    format_loop mem pos uval = None.
Proof.
  intros Hv. pattern uval. apply Zlt_0_ind; [|assumption].
  clear uval Hv. intros uval IH Hv mem pos Hshort.
  rewrite IntegerFormatLenUnsigned_step in Hshort by assumption.
  rewrite format_loop_body. unfold store.
  destruct (Nat.ltb_spec pos (length mem)) as [Hin|Hout]; [|reflexivity].
  destruct (Z.ltb_spec 0 (uval / 10)) as [Hq|Hq]; [|lia].
  apply (IH (uval / 10) (div10_lt uval Hq)).
  rewrite length_insert. lia.
Qed.

Section FormatBuffer.
Variable T : IntType.
Hypothesis HT : IsInteger T.

(** The magnitude that the digit loop is entered with. *)
Lemma FormatInteger_magnitude (value : Z) :
  representable T value ->
  (if value <? 0
   then convert (make_unsigned T) (uneg (make_unsigned T)
                                     (convert (make_unsigned T) value))
   else convert (make_unsigned T) value) = Z.abs value.
Proof using HT.
  intros Hv. destruct (Z.ltb_spec value 0).
  - rewrite (magnitude_of_negative T HT) by assumption. lia.
  - rewrite (magnitude_of_nonnegative T HT) by assumption. lia.
Qed.

(** With fewer bytes than the text has characters the call writes outside the
    memory. *)
Lemma FormatInteger_short (mem : list ascii) (out_str : nat) (value : Z) :
  representable T value ->
  (length mem < out_str + format_length value)%nat ->
  FormatInteger T mem out_str value = None.
Proof using HT.
  intros Hv Hshort. unfold FormatInteger. cbv zeta.
  rewrite (FormatInteger_magnitude value Hv).
  unfold format_length in Hshort.
  set (n := IntegerFormatLenUnsigned (Z.abs value)) in *.
  destruct (Nat.lt_ge_cases (length mem) (out_str + n)) as [Hlt|Hge].
  - now rewrite format_loop_short by (fold n; lia).
  - destruct (Z.ltb_spec value 0) as [Hneg|Hnn]; [|lia].
    destruct (memory_cut mem out_str n Hge) as (Hmem & Hpre & Hold).
    destruct (format_loop_writes (Z.abs value) ltac:(lia) (take out_str mem)
                (take n (drop out_str mem)) (drop (out_str + n) mem) Hold)
      as (ds & Hrun & Hds & _).
    rewrite <- Hmem, Hpre in Hrun. rewrite Hrun. cbn [mbind option_bind].
    rewrite store_at_end; [reflexivity|].
    rewrite !length_app, Hpre, length_drop. fold n in Hds. lia.
Qed.

(** A call that returns has written the decimal representation of the value
    at [out_str] and nothing else. *)
Lemma FormatInteger_success (mem mem' : list ascii) (out_str pos : nat) (value : Z) :
  representable T value ->
  FormatInteger T mem out_str value = Some (mem', pos) ->
  exists str : list ascii,
    decimal_repr value str /\ length str = format_length value /\
    (out_str + length str <= length mem)%nat /\
    pos = (out_str + length str)%nat /\
    mem' = take out_str mem ++ str ++ drop (out_str + length str) mem /\
    span mem' out_str pos = str.
Proof using HT.
  intros Hv Hrun.
  destruct (Nat.lt_ge_cases (length mem) (out_str + format_length value))
    as [Hshort|Hcap].
  { rewrite (FormatInteger_short mem out_str value Hv Hshort) in Hrun. discriminate. }
  destruct (FormatInteger_result T HT mem out_str value Hv Hcap)
    as (str & Hres & Hrepr & Hlen).
  rewrite Hres in Hrun. injection Hrun as <- <-.
  exists str. repeat split; try assumption; try lia.
  apply span_written. lia.
Qed.

End FormatBuffer.

(** ** Uniqueness of the decimal representation *)

Lemma leading_nonzero_value (s : list ascii) :
  forallb is_digit s = true -> leading_nonzero s = true -> 1 <= decimal_value s.
Proof.
  destruct s as [|ch s]; simpl; [discriminate|].
  intros Hall Hnz. apply andb_true_iff in Hall as [Hch Hs].
  apply negb_true_iff, Ascii.eqb_neq in Hnz.
  pose proof (digit_value_range ch Hch) as Hd.
  assert (digit_value ch <> 0).
  { intros Hz. apply Hnz, UChar_inj. unfold digit_value in Hz. lia. }
  unfold decimal_value. rewrite decimal_from_cons.
  pose proof (decimal_from_ge s (0 * 10 + digit_value ch) Hs ltac:(lia)). lia.
Qed.

Lemma decimal_value_snoc (s : list ascii) (ch : ascii) :
  decimal_value (s ++ [ch]) = decimal_value s * 10 + digit_value ch.
Proof.
  unfold decimal_value. now rewrite decimal_from_app.
Qed.

(** Digits without a leading zero are determined by the number they write (the
    empty string standing for zero). *)
Lemma digits_value_inj (a : list ascii) :
  forall b : list ascii,
    forallb is_digit a = true -> forallb is_digit b = true ->
    a = [] \/ leading_nonzero a = true ->
    b = [] \/ leading_nonzero b = true ->
    decimal_value a = decimal_value b -> a = b.
Proof.
  induction a as [|x a IH] using rev_ind; intros b Ha Hb Na Nb Hval.
  - destruct Nb as [->|Lb]; [reflexivity|].
    pose proof (leading_nonzero_value b Hb Lb). change (decimal_value []) with 0 in Hval.
    lia.
  - assert (La : leading_nonzero (a ++ [x]) = true).
    { destruct Na as [Hnil|La]; [|exact La]. now destruct a. }
    induction b as [|y b _] using rev_ind.
    + pose proof (leading_nonzero_value _ Ha La).
      change (decimal_value []) with 0 in Hval. lia.
    + assert (Lb : leading_nonzero (b ++ [y]) = true).
      { destruct Nb as [Hnil|Lb]; [|exact Lb]. now destruct b. }
      rewrite forallb_app in Ha, Hb. simpl in Ha, Hb.
      apply andb_true_iff in Ha as [Ha Hx]. apply andb_true_iff in Hb as [Hb Hy].
      rewrite andb_true_r in Hx, Hy.
      pose proof (digit_value_range x Hx). pose proof (digit_value_range y Hy).
      rewrite !decimal_value_snoc in Hval.
      assert (Hxy : x = y) by (apply UChar_inj; unfold digit_value in *; lia).
      subst y. f_equal. apply IH; try assumption.
      * destruct a; [now left|right; exact La].
      * destruct b; [now left|right; exact Lb].
      * lia.
Qed.

Lemma canonical_cases (s : list ascii) :
  digit_string s = true -> canonical s = true ->
  s = ["0"%char] \/ leading_nonzero s = true.
Proof.
  intros Hds Hcan. destruct (digit_string_inv s Hds) as (ch & rest & -> & _).
  simpl. destruct (Ascii.eqb_spec ch "0") as [->|Hne]; [|now right].
  left. destruct rest; [reflexivity|discriminate].
Qed.

Lemma canonical_unique (a b : list ascii) :
  digit_string a = true -> digit_string b = true ->
  canonical a = true -> canonical b = true ->
  decimal_value a = decimal_value b -> a = b.
Proof.
  intros Da Db Ca Cb Hval.
  assert (Ha : forallb is_digit a = true)
    by (unfold digit_string in Da; now apply andb_true_iff in Da).
  assert (Hb : forallb is_digit b = true)
    by (unfold digit_string in Db; now apply andb_true_iff in Db).
  destruct (canonical_cases a Da Ca) as [->|La];
    destruct (canonical_cases b Db Cb) as [->|Lb].
  - reflexivity.
  - pose proof (leading_nonzero_value b Hb Lb).
    change (decimal_value ["0"%char]) with 0 in Hval. lia.
  - pose proof (leading_nonzero_value a Ha La).
    change (decimal_value ["0"%char]) with 0 in Hval. lia.
  - apply digits_value_inj; auto.
Qed.

Lemma decimal_repr_unique (v : Z) (s1 s2 : list ascii) :
  decimal_repr v s1 -> decimal_repr v s2 -> s1 = s2.
Proof.
  intros (d1 & -> & D1 & C1 & V1) (d2 & -> & D2 & C2 & V2).
  f_equal. apply canonical_unique; congruence.
Qed.

(** X4: [FormatInteger] needs exactly as many bytes as the text has characters,
    one for the sign of a negative value plus [IntegerFormatLenUnsigned] of the
    magnitude: with that many bytes at [out_str] it returns the pointer that
    many bytes further, and with fewer it writes outside the memory (there is
    no check in the function). *)
Theorem FormatInteger_buffer_requirement
  (T : IntType) (mem : list ascii) (out_str : nat) (value : Z) :
  IsInteger T -> representable T value ->
  let len := ((if (value <? 0)%Z then 1 else 0)
              + IntegerFormatLenUnsigned (Z.abs value))%nat in
  ((out_str + len <= length mem)%nat ->
   exists mem' : list ascii,
     FormatInteger T mem out_str value = Some (mem', (out_str + len)%nat)) /\
  ((length mem < out_str + len)%nat ->
   FormatInteger T mem out_str value = None).
Proof.
  intros HT Hv len. subst len. fold (format_length value). split.
  - intros Hcap.
    destruct (FormatInteger_result T HT mem out_str value Hv Hcap)
      as (str & Hrun & _ & Hlen).
    rewrite Hlen in Hrun. eexists. exact Hrun.
  - intros Hshort. now apply FormatInteger_short.
Qed.

Lemma FormatInteger_buffer_requirement_witness :
  IsInteger int8_t /\ representable int8_t (-7) /\
  (length (buffer 3) < 2 + 2)%nat /\
  FormatInteger int8_t (buffer 3) 2 (-7) = None /\
  (1 + 2 <= length (buffer 3))%nat /\
  exists mem' : list ascii,
    FormatInteger int8_t (buffer 3) 1 (-7) = Some (mem', (1 + 2)%nat).
Proof.
  assert (H1 : IsInteger int8_t) by (unfold IsInteger; simpl; lia).
  assert (H2 : representable int8_t (-7))
    by (unfold representable, TypeMin, TypeMax; simpl; lia).
  assert (H3 : (length (buffer 3) < 2 + 2)%nat) by (vm_compute; lia).
  assert (H4 : (1 + 2 <= length (buffer 3))%nat) by (vm_compute; lia).
  repeat (split; [assumption|]). split.
  - exact (proj2 (FormatInteger_buffer_requirement int8_t (buffer 3) 2 (-7) H1 H2) H3).
  - split; [assumption|].
    exact (proj1 (FormatInteger_buffer_requirement int8_t (buffer 3) 1 (-7) H1 H2) H4).
Defined.

(** X5: [FormatInteger] is injective: two calls that write the same text were
    given the same value. *)
Theorem FormatInteger_injective
  (T : IntType) (mem1 mem2 mem1' mem2' : list ascii)
  (out_str1 out_str2 pos1 pos2 : nat) (value1 value2 : Z) :
  IsInteger T -> representable T value1 -> representable T value2 ->
  FormatInteger T mem1 out_str1 value1 = Some (mem1', pos1) ->
  FormatInteger T mem2 out_str2 value2 = Some (mem2', pos2) ->
  span mem1' out_str1 pos1 = span mem2' out_str2 pos2 ->
  value1 = value2.
Proof.
  intros HT Hv1 Hv2 Hrun1 Hrun2 Hsame.
  destruct (FormatInteger_success T HT _ _ _ _ _ Hv1 Hrun1)
    as (s1 & Hr1 & _ & _ & _ & _ & Hs1).
  destruct (FormatInteger_success T HT _ _ _ _ _ Hv2 Hrun2)
    as (s2 & Hr2 & _ & _ & _ & _ & Hs2).
  rewrite Hs1, Hs2 in Hsame. subst s2.
  pose proof (ParseInteger_decimal_repr T HT value1 s1 0 Hv1 Hr1) as P1.
  pose proof (ParseInteger_decimal_repr T HT value2 s1 0 Hv2 Hr2) as P2.
  congruence.
Qed.

Lemma FormatInteger_injective_witness :
  IsInteger int8_t /\ representable int8_t 42 /\
  FormatInteger int8_t (buffer 4) 0 42 = Some (text "42##", 2%nat) /\
  FormatInteger int8_t (text "ab42cd") 2 42 = Some (text "ab42cd", 4%nat) /\
  span (text "42##") 0 2 = span (text "ab42cd") 2 4 /\
  42 = 42.
Proof.
  assert (H1 : IsInteger int8_t) by (unfold IsInteger; simpl; lia).
  assert (H2 : representable int8_t 42)
    by (unfold representable, TypeMin, TypeMax; simpl; lia).
  assert (H3 : FormatInteger int8_t (buffer 4) 0 42 = Some (text "42##", 2%nat))
    by reflexivity.
  assert (H4 : FormatInteger int8_t (text "ab42cd") 2 42 = Some (text "ab42cd", 4%nat))
    by reflexivity.
  assert (H5 : span (text "42##") 0 2 = span (text "ab42cd") 2 4) by reflexivity.
  repeat (split; [assumption|]).
  exact (FormatInteger_injective int8_t _ _ _ _ _ _ _ _ 42 42 H1 H2 H2 H3 H4 H5).
Defined.

(** X6: the text [FormatInteger] writes depends on the value only: not on the
    integer type the value is given in, nor on the buffer, its position or its
    prior content. *)
Theorem FormatInteger_text_depends_on_value_only
  (T1 T2 : IntType) (mem1 mem2 mem1' mem2' : list ascii)
  (out_str1 out_str2 pos1 pos2 : nat) (value : Z) :
  IsInteger T1 -> IsInteger T2 ->
  representable T1 value -> representable T2 value ->
  FormatInteger T1 mem1 out_str1 value = Some (mem1', pos1) ->
  FormatInteger T2 mem2 out_str2 value = Some (mem2', pos2) ->
  span mem1' out_str1 pos1 = span mem2' out_str2 pos2.
Proof.
  intros HT1 HT2 Hv1 Hv2 Hrun1 Hrun2.
  destruct (FormatInteger_success T1 HT1 _ _ _ _ _ Hv1 Hrun1)
    as (s1 & Hr1 & _ & _ & _ & _ & Hs1).
  destruct (FormatInteger_success T2 HT2 _ _ _ _ _ Hv2 Hrun2)
    as (s2 & Hr2 & _ & _ & _ & _ & Hs2).
  rewrite Hs1, Hs2. now apply (decimal_repr_unique value).
Qed.

Lemma FormatInteger_text_depends_on_value_only_witness :
  IsInteger int8_t /\ IsInteger uint64_t /\
  representable int8_t 42 /\ representable uint64_t 42 /\
  FormatInteger int8_t (buffer 4) 0 42 = Some (text "42##", 2%nat) /\
  FormatInteger uint64_t (text "ab..cd") 2 42 = Some (text "ab42cd", 4%nat) /\
  span (text "42##") 0 2 = span (text "ab42cd") 2 4.
Proof.
  assert (H1 : IsInteger int8_t) by (unfold IsInteger; simpl; lia).
  assert (H2 : IsInteger uint64_t) by (unfold IsInteger; simpl; lia).
  assert (H3 : representable int8_t 42)
    by (unfold representable, TypeMin, TypeMax; simpl; lia).
  assert (H4 : representable uint64_t 42)
    by (unfold representable, TypeMin, TypeMax; simpl; lia).
  assert (H5 : FormatInteger int8_t (buffer 4) 0 42 = Some (text "42##", 2%nat))
    by reflexivity.
  assert (H6 : FormatInteger uint64_t (text "ab..cd") 2 42
               = Some (text "ab42cd", 4%nat)) by reflexivity.
  repeat (split; [assumption|]).
  exact (FormatInteger_text_depends_on_value_only int8_t uint64_t _ _ _ _ _ _ _ _ 42
           H1 H2 H3 H4 H5 H6).
Defined.

(** ** Parsing, then formatting *)

(** For an input that follows the grammar, being the decimal representation of
    the number it writes is being canonical. *)
Lemma well_formed_decimal_repr (T : IntType) (str : list ascii) :
  well_formed T str = true ->
  (decimal_repr (text_value str) str <-> canonical_text str = true).
Proof.
  intros Hwf.
  destruct (well_formed_inv T str Hwf) as [Hds|(Hs & ds & -> & Hds)].
  - destruct (digit_string_inv str Hds) as (ch & rest & -> & Hall).
    assert (Hch : is_digit ch = true) by (simpl in Hall; now destruct (is_digit ch)).
    pose proof (decimal_value_nonneg _ Hall) as Hnn.
    unfold text_value, canonical_text. rewrite (digit_is_not_minus ch Hch).
    split.
    + intros (ds' & Heq & _ & Hcan & _).
      destruct (Z.ltb_spec (decimal_value (ch :: rest)) 0); [lia|].
      simpl in Heq. now subst ds'.
    + intros Hcan. exists (ch :: rest).
      destruct (Z.ltb_spec (decimal_value (ch :: rest)) 0); [lia|].
      repeat split; try assumption. lia.
  - destruct (digit_string_inv ds Hds) as (ch & rest & -> & Hall).
    pose proof (decimal_value_nonneg _ Hall) as Hnn.
    unfold text_value, canonical_text. simpl Ascii.eqb. cbv iota.
    split.
    + intros (ds' & Heq & Hds' & Hcan & Hval).
      destruct (Z.ltb_spec (- decimal_value (ch :: rest)) 0) as [Hneg|Hge].
      * simpl in Heq. injection Heq as <-. rewrite Hcan. simpl.
        destruct (Z.eqb_spec (decimal_value (ch :: rest)) 0); [lia|reflexivity].
      * simpl in Heq. subst ds'.
        destruct (digit_string_inv _ Hds') as (c & r & [= <- <-] & Hall').
        vm_compute in Hall'. discriminate.
    + intros Hcan. apply andb_true_iff in Hcan as [Hcan Hnz].
      apply negb_true_iff, Z.eqb_neq in Hnz.
      exists (ch :: rest).
      destruct (Z.ltb_spec (- decimal_value (ch :: rest)) 0); [|lia].
      repeat split; try assumption. lia.
Qed.

(** X7: formatting the value [ParseInteger] returned for an input gives the
    input back exactly when the input is canonical, that is without redundant
    leading zeros and not a negative zero; for any other accepted input
    [FormatInteger] writes a different text. *)
Theorem ParseInteger_FormatInteger_roundtrip
  (T : IntType) (str mem : list ascii) (out_str : nat) (out_value value : Z) :
  IsInteger T ->
  ParseInteger T str out_value = Some (true, value) ->
  (out_str + format_length (hardest T) <= length mem)%nat ->
  exists (mem' : list ascii) (pos : nat),
    FormatInteger T mem out_str value = Some (mem', pos) /\
    (span mem' out_str pos = str <-> canonical_text str = true).
Proof.
  intros HT Hparse Hcap.
  destruct (ParseInteger_outcome T HT str out_value) as [Hno|(Hwf & Hrep & Hyes)].
  { rewrite Hno in Hparse. discriminate. }
  rewrite Hyes in Hparse. injection Hparse as <-.
  pose proof (format_length_bound T HT _ Hrep) as Hlen.
  destruct (FormatInteger_result T HT mem out_str _ Hrep ltac:(lia))
    as (str' & Hrun & Hrepr & Hstr).
  eexists _, _. split; [exact Hrun|].
  rewrite span_written by lia.
  rewrite <- (well_formed_decimal_repr T str Hwf). split.
  - intros <-. exact Hrepr.
  - intros Hrepr'. now apply (decimal_repr_unique (text_value str)).
Qed.

Lemma ParseInteger_FormatInteger_roundtrip_witness :
  IsInteger int8_t /\
  ParseInteger int8_t (text "-128") 0 = Some (true, -128) /\
  (0 + format_length (hardest int8_t) <= length (buffer 4))%nat /\
  exists (mem' : list ascii) (pos : nat),
    FormatInteger int8_t (buffer 4) 0 (-128) = Some (mem', pos) /\
    (span mem' 0 pos = text "-128" <-> canonical_text (text "-128") = true).
Proof.
  assert (H1 : IsInteger int8_t) by (unfold IsInteger; simpl; lia).
  assert (H2 : ParseInteger int8_t (text "-128") 0 = Some (true, -128)) by reflexivity.
  assert (H3 : (0 + format_length (hardest int8_t) <= length (buffer 4))%nat)
    by (vm_compute; lia).
  repeat (split; [assumption|]).
  exact (ParseInteger_FormatInteger_roundtrip int8_t (text "-128") (buffer 4) 0 0
           (-128) H1 H2 H3).
Defined.

(** ** The decision of the parser *)

Lemma representableb_spec (T : IntType) (v : Z) :
  representableb T v = true <-> representable T v.
Proof.
  unfold representableb, representable.
  rewrite andb_true_iff, !Z.leb_le. reflexivity.
Qed.

(** X8: [ParseInteger] accepts an input exactly when the input follows the
    grammar and the number it writes is a value of [T]; it then stores that
    number.  Every other input, in particular one that follows the grammar but
    is out of range, however long, is refused and the output location is
    left as it was. *)
Theorem ParseInteger_decision (T : IntType) (str : list ascii) (out_value : Z) :
  IsInteger T ->
  ParseInteger T str out_value =
    if well_formed T str && representableb T (text_value str)
    then Some (true, text_value str) else Some (false, out_value).
Proof.
  intros HT. destruct (half_range T HT) as [Hd Hh].
  destruct (well_formed T str) eqn:Hwf;
    [|now apply ParseInteger_ill_formed].
  rewrite andb_true_l.
  destruct (representableb T (text_value str)) eqn:Hrep.
  - apply representableb_spec in Hrep.
    destruct (well_formed_inv T str Hwf) as [Hds|(Hs & ds & -> & Hds)].
    + destruct (digit_string_inv str Hds) as (ch & rest & -> & Hall).
      assert (Hch : is_digit ch = true) by (simpl in Hall; now destruct (is_digit ch)).
      unfold text_value in *. rewrite (digit_is_not_minus ch Hch) in *.
      rewrite (ParseInteger_digits T HT) by assumption.
      destruct Hrep as [_ Hle].
      destruct (Z.leb_spec (decimal_value (ch :: rest)) (TypeMax T)); [reflexivity|lia].
    + unfold text_value in *. simpl Ascii.eqb in *. cbv iota in *.
      rewrite (ParseInteger_minus_digits T HT) by assumption.
      destruct Hrep as [Hge _]. unfold TypeMin in Hge. rewrite Hs in Hge.
      destruct (Z.leb_spec (decimal_value ds) (2 ^ (bits T - 1))); [reflexivity|lia].
  - destruct (ParseInteger_outcome T HT str out_value) as [Hno|(_ & Hyes & _)];
      [exact Hno|].
    apply representableb_spec in Hyes. congruence.
Qed.

Lemma ParseInteger_decision_witness :
  IsInteger int64_t /\
  ParseInteger int64_t (text "18446744073709551616000") 77 =
    if well_formed int64_t (text "18446744073709551616000")
       && representableb int64_t (text_value (text "18446744073709551616000"))
    then Some (true, text_value (text "18446744073709551616000"))
    else Some (false, 77).
Proof.
  assert (H1 : IsInteger int64_t) by (unfold IsInteger; simpl; lia).
  split; [assumption|].
  exact (ParseInteger_decision int64_t (text "18446744073709551616000") 77 H1).
Defined.

(** X9: a zero put before one or more digits changes nothing: for a non-empty
    string of digits [ds] the call returns the same flag and stores the same
    value for "0" ++ [ds] as for [ds], and for "-0" ++ [ds] as for "-" ++
    [ds]; leading zeros never make such an input overflow.  The digits are
    needed: without any, "" and "-" are refused while "0" and, for a signed
    [T], "-0" are accepted. *)
Theorem ParseInteger_ignores_leading_zero
  (T : IntType) (ds : list ascii) (out_value : Z) :
  IsInteger T -> digit_string ds = true ->
  ParseInteger T ("0"%char :: ds) out_value = ParseInteger T ds out_value /\
  ParseInteger T ("-"%char :: "0"%char :: ds) out_value
  = ParseInteger T ("-"%char :: ds) out_value /\
  (ParseInteger T [] out_value = Some (false, out_value) /\
   ParseInteger T ["0"%char] out_value = Some (true, 0) /\
   ParseInteger T ["-"%char] out_value = Some (false, out_value) /\
   (is_signed T = true ->
    ParseInteger T ["-"%char; "0"%char] out_value = Some (true, 0))).
Proof.
  intros HT Hds. destruct (half_range T HT) as [Hd Hh].
  pose proof (TypeMax_bounds T HT) as Hmax.
  assert (Hds0 : digit_string ("0"%char :: ds) = true).
  { unfold digit_string in *. apply andb_true_iff in Hds as [_ Hall].
    simpl. exact Hall. }
  assert (Hval : decimal_value ("0"%char :: ds) = decimal_value ds) by reflexivity.
  split; [|split].
  - rewrite !(ParseInteger_digits T HT) by assumption. now rewrite Hval.
  - destruct (is_signed T) eqn:Hs.
    + rewrite !(ParseInteger_minus_digits T HT) by assumption. now rewrite Hval.
    + rewrite !ParseInteger_ill_formed; try reflexivity; simpl; now rewrite Hs.
  - split; [reflexivity|]. split; [|split].
    + rewrite (ParseInteger_digits T HT) by reflexivity.
      change (decimal_value ["0"%char]) with 0.
      destruct (Z.leb_spec 0 (TypeMax T)); [reflexivity|lia].
    + apply ParseInteger_ill_formed. simpl. apply andb_false_r.
    + intros Hs. rewrite (ParseInteger_minus_digits T HT) by (auto; reflexivity).
      change (decimal_value ["0"%char]) with 0.
      destruct (Z.leb_spec 0 (2 ^ (bits T - 1))); [reflexivity|lia].
Qed.

Lemma ParseInteger_ignores_leading_zero_witness :
  IsInteger int8_t /\ digit_string (text "128") = true /\
  ParseInteger int8_t ("0"%char :: text "128") 77 = ParseInteger int8_t (text "128") 77 /\
  ParseInteger int8_t ("-"%char :: "0"%char :: text "128") 77
  = ParseInteger int8_t ("-"%char :: text "128") 77.
Proof.
  assert (H1 : IsInteger int8_t) by (unfold IsInteger; simpl; lia).
  assert (H2 : digit_string (text "128") = true) by reflexivity.
  split; [exact H1|]. split; [exact H2|].
  destruct (ParseInteger_ignores_leading_zero int8_t (text "128") 77 H1 H2)
    as (Hplain & Hminus & _).
  split; [exact Hplain|exact Hminus].
Defined.

(** X10: for a signed [T], digits that are accepted without a sign are accepted
    after a ['-'], with the opposite value; the converse fails for one number
    only: digits are accepted after a ['-'] and refused without it exactly when
    they write the magnitude of [TypeMin<T>], and the value stored is then
    [TypeMin<T>]. *)
Theorem ParseInteger_sign_asymmetry
  (T : IntType) (ds : list ascii) (out_value : Z) :
  IsInteger T -> is_signed T = true -> digit_string ds = true ->
  (forall v : Z,
     ParseInteger T ds out_value = Some (true, v) ->
     ParseInteger T ("-"%char :: ds) out_value = Some (true, - v)) /\
  ((ParseInteger T ds out_value = Some (false, out_value) /\
    exists v : Z, ParseInteger T ("-"%char :: ds) out_value = Some (true, v))
   <-> decimal_value ds = - TypeMin T) /\
  (decimal_value ds = - TypeMin T ->
   ParseInteger T ("-"%char :: ds) out_value = Some (true, TypeMin T)).
Proof.
  intros HT Hs Hds. destruct (half_range T HT) as [Hd Hh].
  rewrite (ParseInteger_digits T HT) by assumption.
  rewrite (ParseInteger_minus_digits T HT) by assumption.
  unfold TypeMin, TypeMax. rewrite Hs.
  destruct (Z.leb_spec (decimal_value ds) (2 ^ (bits T - 1) - 1)) as [Hle|Hgt];
    destruct (Z.leb_spec (decimal_value ds) (2 ^ (bits T - 1))) as [Hle'|Hgt'];
    try lia.
  - split; [|split].
    + now intros v [= <-].
    + split; [intros [[=] _]|lia].
    + lia.
  - split; [|split].
    + intros v [=].
    + split; [lia|]. intros _. split; [reflexivity|eauto].
    + intros Heq. do 2 f_equal. lia.
  - split; [|split].
    + intros v [=].
    + split; [intros [_ [v [=]]]|lia].
    + lia.
Qed.

Lemma ParseInteger_sign_asymmetry_witness :
  IsInteger int8_t /\ is_signed int8_t = true /\ digit_string (text "128") = true /\
  decimal_value (text "128") = - TypeMin int8_t /\
  ParseInteger int8_t ("-"%char :: text "128") 77 = Some (true, TypeMin int8_t).
Proof.
  assert (H1 : IsInteger int8_t) by (unfold IsInteger; simpl; lia).
  assert (H2 : is_signed int8_t = true) by reflexivity.
  assert (H3 : digit_string (text "128") = true) by reflexivity.
  assert (H4 : decimal_value (text "128") = - TypeMin int8_t) by reflexivity.
  repeat (split; [assumption|]).
  exact (proj2 (proj2 (ParseInteger_sign_asymmetry int8_t (text "128") 77 H1 H2 H3)) H4).
Defined.

(** ** Formatting in one type, parsing in another *)

(** X16: the text that [FormatInteger] writes for a value of a type [T1] is
    accepted by [ParseInteger] for a type [T2] exactly when the value is also a
    value of [T2], and the value is then returned; otherwise, for instance for
    a negative value and an unsigned [T2], the call returns false. *)
Theorem FormatInteger_ParseInteger_across_types
  (T1 T2 : IntType) (mem mem' : list ascii) (out_str pos : nat)
  (value out_value : Z) :
  IsInteger T1 -> IsInteger T2 -> representable T1 value ->
  FormatInteger T1 mem out_str value = Some (mem', pos) ->
  ParseInteger T2 (span mem' out_str pos) out_value =
    if representableb T2 value then Some (true, value) else Some (false, out_value).
Proof.
  intros HT1 HT2 Hv Hrun. destruct (half_range T2 HT2) as [Hd Hh].
  destruct (FormatInteger_success T1 HT1 _ _ _ _ _ Hv Hrun)
    as (str & (ds & -> & Hds & _ & Hval) & _ & _ & _ & _ & ->).
  destruct (digit_string_inv ds Hds) as (ch & rest & Hds' & Hall).
  pose proof (decimal_value_nonneg ds ltac:(now rewrite Hds')) as Hnn.
  unfold representableb, TypeMin, TypeMax.
  destruct (Z.ltb_spec value 0) as [Hneg|Hpos]; cbn [app].
  - destruct (is_signed T2) eqn:Hs.
    + rewrite (ParseInteger_minus_digits T2 HT2) by assumption. rewrite Hval.
      destruct (Z.leb_spec (Z.abs value) (2 ^ (bits T2 - 1)));
        destruct (Z.leb_spec (- 2 ^ (bits T2 - 1)) value);
        destruct (Z.leb_spec value (2 ^ (bits T2 - 1) - 1)); try lia; simpl.
      * do 2 f_equal. lia.
      * reflexivity.
    + rewrite ParseInteger_ill_formed by (simpl; now rewrite Hs).
      destruct (Z.leb_spec 0 value); [lia|reflexivity].
  - rewrite (ParseInteger_digits T2 HT2) by assumption. rewrite Hval.
    unfold TypeMax.
    destruct (is_signed T2);
      match goal with
      | |- context [Z.abs value <=? ?m] => destruct (Z.leb_spec (Z.abs value) m)
      end;
      match goal with
      | |- context [?m <=? value] => destruct (Z.leb_spec m value)
      end;
      match goal with
      | |- context [value <=? ?m] => destruct (Z.leb_spec value m)
      end; try lia; simpl; try reflexivity; do 2 f_equal; lia.
Qed.

Lemma FormatInteger_ParseInteger_across_types_witness :
  IsInteger uint8_t /\ IsInteger int8_t /\ representable uint8_t 200 /\
  FormatInteger uint8_t (buffer 3) 0 200 = Some (text "200", 3%nat) /\
  ParseInteger int8_t (span (text "200") 0 3) 77 =
    if representableb int8_t 200 then Some (true, 200) else Some (false, 77).
Proof.
  assert (H1 : IsInteger uint8_t) by (unfold IsInteger; simpl; lia).
  assert (H2 : IsInteger int8_t) by (unfold IsInteger; simpl; lia).
  assert (H3 : representable uint8_t 200)
    by (unfold representable, TypeMin, TypeMax; simpl; lia).
  assert (H4 : FormatInteger uint8_t (buffer 3) 0 200 = Some (text "200", 3%nat))
    by reflexivity.
  split; [exact H1|]. split; [exact H2|]. split; [exact H3|]. split; [exact H4|].
  exact (FormatInteger_ParseInteger_across_types uint8_t int8_t _ _ _ _ 200 77
           H1 H2 H3 H4).
Defined.

(** ** Enum bitfields *)

Section EnumBits.
Variable U : IntType.
Hypothesis HU : IsInteger U.

Lemma convert_range (x : Z) : representable U (convert U x).
Proof using HU.
  destruct (half_range U HU) as [Hd Hh].
  unfold representable, TypeMin, TypeMax, convert.
  destruct (is_signed U).
  - pose proof (Z.mod_pos_bound (x + 2 ^ (bits U - 1)) (2 ^ bits U) ltac:(lia)). lia.
  - pose proof (Z.mod_pos_bound x (2 ^ bits U) ltac:(lia)). lia.
Qed.

Lemma convert_mod (x : Z) : convert U x mod 2 ^ bits U = x mod 2 ^ bits U.
Proof using HU.
  destruct (half_range U HU) as [Hd Hh]. unfold convert.
  destruct (is_signed U).
  - rewrite Zminus_mod_idemp_l. f_equal. lia.
  - apply Z.mod_mod. lia.
Qed.

Lemma convert_congruent (x y : Z) :
  x mod 2 ^ bits U = y mod 2 ^ bits U -> convert U x = convert U y.
Proof.
  intros Hxy. unfold convert. destruct (is_signed U); [|exact Hxy].
  f_equal. rewrite (Z.add_mod x), (Z.add_mod y), Hxy; [reflexivity| |].
  all: unfold IsInteger in HU; apply Z.pow_nonzero; lia.
Qed.

(** The cast keeps the digits of the underlying type. *)
Lemma convert_testbit (x i : Z) :
  0 <= i < bits U -> Z.testbit (convert U x) i = Z.testbit x i.
Proof using HU.
  intros Hi.
  rewrite <- (Z.mod_pow2_bits_low (convert U x) (bits U) i) by lia.
  rewrite convert_mod. apply Z.mod_pow2_bits_low. lia.
Qed.

(** Two values of the underlying type with the same digits are equal. *)
Lemma low_bits_eq (a b : Z) :
  representable U a -> representable U b ->
  (forall i : Z, 0 <= i < bits U -> Z.testbit a i = Z.testbit b i) ->
  a = b.
Proof using HU.
  intros Ha Hb Hbits.
  rewrite <- (convert_T_representable U HU a Ha),
          <- (convert_T_representable U HU b Hb).
  apply convert_congruent. apply Z.bits_inj'. intros n Hn.
  destruct (Z_lt_dec n (bits U)) as [Hlt|Hge].
  - rewrite !Z.mod_pow2_bits_low by lia. apply Hbits. lia.
  - unfold IsInteger in HU. rewrite !Z.mod_pow2_bits_high by lia. reflexivity.
Qed.

Lemma zero_representable : representable U 0.
Proof using HU.
  destruct (half_range U HU) as [Hd Hh].
  unfold representable, TypeMin, TypeMax. destruct (is_signed U); lia.
Qed.

End EnumBits.

(** Equality of two values of the underlying type, digit by digit. *)
Ltac enum_bits U HU :=
  apply (low_bits_eq U HU);
  [ try assumption; try apply (convert_range U HU); try apply (zero_representable U HU)
  | try assumption; try apply (convert_range U HU); try apply (zero_representable U HU)
  | let i := fresh "i" in
    let Hi := fresh "Hi" in
    intros i Hi;
    repeat first
      [ rewrite (convert_testbit U HU) by exact Hi
      | rewrite Z.lor_spec | rewrite Z.land_spec | rewrite Z.lxor_spec
      | rewrite Z.lnot_spec by lia | rewrite Z.bits_0 ];
    repeat match goal with
           | |- context [Z.testbit ?x i] => destruct (Z.testbit x i)
           end;
    reflexivity ].

(** X11: [~] on a bitfield enum gives a value of the underlying type, also where
    the operand is promoted and its complement in [int] is negative; it is an
    involution, and a value and its complement have no bit in common and
    together all bits. *)
Theorem operator_not_complement (U : IntType) (arg : Z) :
  IsInteger U -> representable U arg ->
  representable U (operator_not U arg) /\
  operator_not U (operator_not U arg) = arg /\
  operator_eq (operator_and U arg (operator_not U arg)) EnumZero = true /\
  operator_or U arg (operator_not U arg) = operator_not U 0 /\
  (is_signed U = false -> operator_not U arg = 2 ^ bits U - 1 - arg).
Proof.
  intros HU Ha.
  unfold operator_not, operator_and, operator_or, operator_eq, EnumType,
    ToUnderlyingType.
  split; [apply (convert_range U HU)|]. split; [|split; [|split]].
  - enum_bits U HU.
  - apply Z.eqb_eq. enum_bits U HU.
  - enum_bits U HU.
  - intros Hu. destruct (half_range U HU) as [Hd Hh].
    unfold representable, TypeMin, TypeMax in Ha. unfold convert.
    rewrite Hu in *. unfold Z.lnot, Z.pred. rewrite wrap_up by lia. lia.
Qed.

Lemma operator_not_complement_witness :
  IsInteger uint8_t /\ representable uint8_t 5 /\
  representable uint8_t (operator_not uint8_t 5) /\
  operator_not uint8_t (operator_not uint8_t 5) = 5 /\
  operator_eq (operator_and uint8_t 5 (operator_not uint8_t 5)) EnumZero = true /\
  operator_or uint8_t 5 (operator_not uint8_t 5) = operator_not uint8_t 0 /\
  (is_signed uint8_t = false -> operator_not uint8_t 5 = 2 ^ bits uint8_t - 1 - 5).
Proof.
  assert (H1 : IsInteger uint8_t) by (unfold IsInteger; simpl; lia).
  assert (H2 : representable uint8_t 5)
    by (unfold representable, TypeMin, TypeMax; simpl; lia).
  split; [exact H1|]. split; [exact H2|].
  exact (operator_not_complement uint8_t 5 H1 H2).
Defined.

(** X12: setting, clearing and toggling flags with the compound assignments:
    after [a |= f] every flag of [f] is set in [a], after [a &= ~f] none is,
    and [a ^= f] done twice leaves [a] as it was. *)
Theorem compound_assignment_flags (U : IntType) (a f : Z) :
  IsInteger U -> representable U a -> representable U f ->
  operator_and U (operator_or_assign U a f) f = f /\
  operator_eq (operator_and U (operator_and_assign U a (operator_not U f)) f)
    EnumZero = true /\
  operator_xor_assign U (operator_xor_assign U a f) f = a.
Proof.
  intros HU Ha Hf.
  unfold operator_and, operator_or_assign, operator_and_assign, operator_xor_assign,
    operator_not, operator_eq, EnumType, ToUnderlyingType.
  cbv zeta. split; [|split].
  - enum_bits U HU.
  - apply Z.eqb_eq. enum_bits U HU.
  - enum_bits U HU.
Qed.

Lemma compound_assignment_flags_witness :
  IsInteger uint8_t /\ representable uint8_t 5 /\ representable uint8_t 6 /\
  operator_and uint8_t (operator_or_assign uint8_t 5 6) 6 = 6 /\
  operator_eq (operator_and uint8_t
                 (operator_and_assign uint8_t 5 (operator_not uint8_t 6)) 6)
    EnumZero = true /\
  operator_xor_assign uint8_t (operator_xor_assign uint8_t 5 6) 6 = 5.
Proof.
  assert (H1 : IsInteger uint8_t) by (unfold IsInteger; simpl; lia).
  assert (H2 : representable uint8_t 5)
    by (unfold representable, TypeMin, TypeMax; simpl; lia).
  assert (H3 : representable uint8_t 6)
    by (unfold representable, TypeMin, TypeMax; simpl; lia).
  split; [exact H1|].
  split; [exact H2|].
  split; [exact H3|].
  exact (compound_assignment_flags uint8_t 5 6 H1 H2 H3).
Defined.

(** X13: the flags of [a] other than those of [f] are not changed by setting or
    clearing [f]: masked with [~f], [a | f] and [a & ~f] are both [a & ~f]. *)
Theorem set_and_clear_keep_other_flags (U : IntType) (a f : Z) :
  IsInteger U -> representable U a -> representable U f ->
  operator_and U (operator_or U a f) (operator_not U f)
  = operator_and U a (operator_not U f) /\
  operator_and U (operator_and U a (operator_not U f)) (operator_not U f)
  = operator_and U a (operator_not U f).
Proof.
  intros HU Ha Hf.
  unfold operator_and, operator_or, operator_not, EnumType, ToUnderlyingType.
  split; enum_bits U HU.
Qed.

Lemma set_and_clear_keep_other_flags_witness :
  IsInteger int8_t /\ representable int8_t 5 /\ representable int8_t (-128) /\
  operator_and int8_t (operator_or int8_t 5 (-128)) (operator_not int8_t (-128))
  = operator_and int8_t 5 (operator_not int8_t (-128)) /\
  operator_and int8_t (operator_and int8_t 5 (operator_not int8_t (-128)))
    (operator_not int8_t (-128))
  = operator_and int8_t 5 (operator_not int8_t (-128)).
Proof.
  assert (H1 : IsInteger int8_t) by (unfold IsInteger; simpl; lia).
  assert (H2 : representable int8_t 5)
    by (unfold representable, TypeMin, TypeMax; simpl; lia).
  assert (H3 : representable int8_t (-128))
    by (unfold representable, TypeMin, TypeMax; simpl; lia).
  split; [exact H1|].
  split; [exact H2|].
  split; [exact H3|].
  exact (set_and_clear_keep_other_flags int8_t 5 (-128) H1 H2 H3).
Defined.

(** X14: the zero tests: [!= EnumZero] is the negation of [== EnumZero]; a union
    is zero exactly when both operands are; and [a & f] is not zero exactly
    when [a] has a flag of [f], that is when clearing [f] changes [a]. *)
Theorem zero_tests (U : IntType) (a b : Z) :
  IsInteger U -> representable U a -> representable U b ->
  operator_ne a EnumZero = negb (operator_eq a EnumZero) /\
  operator_eq (operator_or U a b) EnumZero
  = operator_eq a EnumZero && operator_eq b EnumZero /\
  (operator_ne (operator_and U a b) EnumZero = true <->
   operator_and U a (operator_not U b) <> a).
Proof.
  intros HU Ha Hb.
  unfold operator_ne, operator_eq, operator_or, operator_and, operator_not,
    EnumType, ToUnderlyingType.
  split; [reflexivity|]. split.
  - destruct (Z.eqb_spec a 0) as [->|Hna]; [destruct (Z.eqb_spec b 0) as [->|Hnb]|].
    + change (Z.lor 0 0) with 0. now rewrite (convert_T_representable U HU 0 Ha).
    + change ((0 =? 0) && false) with false.
      apply Z.eqb_neq. intros Hz. apply Hnb.
      apply (low_bits_eq U HU); [assumption|apply (zero_representable U HU)|].
      intros i Hi.
      assert (Hbit : Z.testbit (convert U (Z.lor 0 b)) i = false)
        by (rewrite Hz; apply Z.bits_0).
      rewrite (convert_testbit U HU), Z.lor_spec, Z.bits_0 in Hbit by exact Hi.
      now rewrite Z.bits_0.
    + cbn [andb]. apply Z.eqb_neq. intros Hz. apply Hna.
      apply (low_bits_eq U HU); [assumption|apply (zero_representable U HU)|].
      intros i Hi.
      assert (Hbit : Z.testbit (convert U (Z.lor a b)) i = false)
        by (rewrite Hz; apply Z.bits_0).
      rewrite (convert_testbit U HU), Z.lor_spec in Hbit by exact Hi.
      rewrite Z.bits_0. now destruct (Z.testbit a i).
  - rewrite negb_true_iff, Z.eqb_neq. split.
    + intros Hnz Hsame. apply Hnz.
      apply (low_bits_eq U HU);
        [apply (convert_range U HU)|apply (zero_representable U HU)|].
      intros i Hi.
      assert (Hbit : Z.testbit (convert U (Z.land a (convert U (Z.lnot b)))) i
                     = Z.testbit a i) by now rewrite Hsame.
      rewrite !(convert_testbit U HU), Z.land_spec, (convert_testbit U HU),
        Z.lnot_spec in Hbit by lia.
      rewrite (convert_testbit U HU), Z.land_spec, Z.bits_0 by exact Hi.
      destruct (Z.testbit a i), (Z.testbit b i); simpl in *; congruence.
    + intros Hchg Hz. apply Hchg.
      apply (low_bits_eq U HU); [apply (convert_range U HU)|assumption|].
      intros i Hi.
      assert (Hbit : Z.testbit (convert U (Z.land a b)) i = false)
        by (rewrite Hz; apply Z.bits_0).
      rewrite (convert_testbit U HU), Z.land_spec in Hbit by exact Hi.
      rewrite !(convert_testbit U HU), Z.land_spec, (convert_testbit U HU),
        Z.lnot_spec by lia.
      destruct (Z.testbit a i), (Z.testbit b i); simpl in *; congruence.
Qed.

Lemma zero_tests_witness :
  IsInteger uint8_t /\ representable uint8_t 5 /\ representable uint8_t 4 /\
  operator_ne 5 EnumZero = negb (operator_eq 5 EnumZero) /\
  operator_eq (operator_or uint8_t 5 4) EnumZero
  = operator_eq 5 EnumZero && operator_eq 4 EnumZero /\
  (operator_ne (operator_and uint8_t 5 4) EnumZero = true <->
   operator_and uint8_t 5 (operator_not uint8_t 4) <> 5).
Proof.
  assert (H1 : IsInteger uint8_t) by (unfold IsInteger; simpl; lia).
  assert (H2 : representable uint8_t 5)
    by (unfold representable, TypeMin, TypeMax; simpl; lia).
  assert (H3 : representable uint8_t 4)
    by (unfold representable, TypeMin, TypeMax; simpl; lia).
  split; [exact H1|].
  split; [exact H2|].
  split; [exact H3|].
  exact (zero_tests uint8_t 5 4 H1 H2 H3).
Defined.

(** X15: the operators follow the laws of a Boolean algebra through the casts:
    De Morgan's laws, distribution of [&] over [|], and [^] as the union
    without the intersection. *)
Theorem operator_laws (U : IntType) (a b c : Z) :
  IsInteger U -> representable U a -> representable U b -> representable U c ->
  operator_not U (operator_or U a b)
  = operator_and U (operator_not U a) (operator_not U b) /\
  operator_not U (operator_and U a b)
  = operator_or U (operator_not U a) (operator_not U b) /\
  operator_and U a (operator_or U b c)
  = operator_or U (operator_and U a b) (operator_and U a c) /\
  operator_xor U a b
  = operator_and U (operator_or U a b) (operator_not U (operator_and U a b)).
Proof.
  intros HU Ha Hb Hc.
  unfold operator_and, operator_or, operator_not, operator_xor, EnumType,
    ToUnderlyingType.
  repeat split; enum_bits U HU.
Qed.

Lemma operator_laws_witness :
  IsInteger int8_t /\ representable int8_t 5 /\ representable int8_t (-3) /\
  representable int8_t 96 /\
  operator_not int8_t (operator_or int8_t 5 (-3))
  = operator_and int8_t (operator_not int8_t 5) (operator_not int8_t (-3)) /\
  operator_not int8_t (operator_and int8_t 5 (-3))
  = operator_or int8_t (operator_not int8_t 5) (operator_not int8_t (-3)) /\
  operator_and int8_t 5 (operator_or int8_t (-3) 96)
  = operator_or int8_t (operator_and int8_t 5 (-3)) (operator_and int8_t 5 96) /\
  operator_xor int8_t 5 (-3)
  = operator_and int8_t (operator_or int8_t 5 (-3))
      (operator_not int8_t (operator_and int8_t 5 (-3))).
Proof.
  assert (H1 : IsInteger int8_t) by (unfold IsInteger; simpl; lia).
  assert (H2 : representable int8_t 5)
    by (unfold representable, TypeMin, TypeMax; simpl; lia).
  assert (H3 : representable int8_t (-3))
    by (unfold representable, TypeMin, TypeMax; simpl; lia).
  assert (H4 : representable int8_t 96)
    by (unfold representable, TypeMin, TypeMax; simpl; lia).
  split; [exact H1|].
  split; [exact H2|].
  split; [exact H3|].
  split; [exact H4|].
  exact (operator_laws int8_t 5 (-3) 96 H1 H2 H3 H4).
Defined.
